(** * The terminal card and its snake game

    Shallow embeddings of the two components of
    [src/components/TerminalCard.tsx], [TerminalCard] and [SnakeGame],
    with the properties proved of each. *)

From Stdlib Require Import ZArith List String Bool Lia.
Import ListNotations.

(** * TerminalCard: the command line of the card

    The first document of [src/components/TerminalCard.tsx]: the state
    cells of the [TerminalCard] component, [executeCommand],
    [handleTabComplete], the [keydown] listener of the input with its
    history navigation, the [onChange] of the input and the cursor blink.

    Modelling conventions.
    - A JavaScript string is a [string]; the only operations made on one
      are comparisons with ASCII literals and prefix tests against the
      ASCII [availableCommands].  [String.prototype.trim] and
      [String.prototype.toLowerCase] are parameters of the model: nothing
      is assumed of them but what a statement says.
    - The JSX a command prints is static apart from the echoed command of
      the [default] case; each payload is a constructor of [Output].
    - An array read outside its bounds is [undefined]: [currentCommand] is
      an [option string] with [None] for [undefined], and calling a string
      method on it throws. *)
Module TerminalCard.

Local Open Scope string_scope.
Local Open Scope Z_scope.

(** The [output] of each [case] of [executeCommand] that reaches [break]. *)
Inductive Output : Type :=
  | LsOutput
  | WhoamiOutput
  | HelpOutput
  | AboutOutput
  | SkillsOutput
  | LinksOutput
  | NotFoundOutput (cmd : string).

Record CommandOutput : Type := mkCommandOutput {
  command : string;
  output : Output
}.

(** The five [useState] cells of the component. *)
Record Terminal : Type := mkTerminal {
  commandHistory : list CommandOutput;
  currentCommand : option string;
  showCursor : bool;
  inputHistory : list string;
  historyIndex : Z
}.

(** The initial values handed to [useState]. *)
Definition initial : Terminal :=
  {| commandHistory := [];
     currentCommand := Some "";
     showCursor := true;
     inputHistory := [];
     historyIndex := -1 |}.

(** A handler returns or throws a [TypeError]. *)
Inductive outcome (A : Type) : Type :=
  | Returns (a : A)
  | Throws.
Arguments Returns {A} a.
Arguments Throws {A}.

Definition availableCommands : list string :=
  ["ls"; "whoami"; "cat about.txt"; "cat help.txt"; "cat skills.txt";
   "cat links.json"; "clear"].

(** [array[i]] for a number [i] that holds an integer. *)
Definition at_index (l : list string) (i : Z) : option string :=
  if i <? 0 then None else nth_error l (Z.to_nat i).

(** How the [switch (trimmedCmd)] of [executeCommand] is left. *)
Inductive Switch : Type :=
  | Break (output : Output)
  | ReturnAfterClear
  | ReturnAtOnce.

Definition switch (trimmedCmd cmd : string) : Switch :=
  if String.eqb trimmedCmd "ls" then Break LsOutput
  else if String.eqb trimmedCmd "whoami" then Break WhoamiOutput
  else if String.eqb trimmedCmd "cat help.txt" then Break HelpOutput
  else if String.eqb trimmedCmd "cat about.txt" then Break AboutOutput
  else if String.eqb trimmedCmd "cat skills.txt" then Break SkillsOutput
  else if String.eqb trimmedCmd "cat links.json" then Break LinksOutput
  else if String.eqb trimmedCmd "clear" then ReturnAfterClear
  else if String.eqb trimmedCmd "" then ReturnAtOnce
  else Break (NotFoundOutput cmd).

Section Builtins.

(** [String.prototype.trim] and [String.prototype.toLowerCase]. *)
Variable trim : string -> string.
Variable toLowerCase : string -> string.

Definition executeCommand (cmd : string) (t : Terminal) : Terminal :=
  let trimmedCmd := toLowerCase (trim cmd) in
  match switch trimmedCmd cmd with
  | ReturnAfterClear =>
      {| commandHistory := [];
         currentCommand := Some "";
         showCursor := showCursor t;
         inputHistory := inputHistory t;
         historyIndex := historyIndex t |}
  | ReturnAtOnce => t
  | Break output =>
      (* [if (trimmedCmd)]: the empty string is the only falsy one *)
      let recorded := negb (String.eqb trimmedCmd "") in
      {| commandHistory :=
           commandHistory t ++ [{| command := cmd; output := output |}];
         currentCommand := Some "";
         showCursor := showCursor t;
         inputHistory :=
           if recorded then inputHistory t ++ [trimmedCmd]
           else inputHistory t;
         historyIndex := if recorded then -1 else historyIndex t |}
  end.

Definition setCurrentCommand (c : option string) (t : Terminal) : Terminal :=
  {| commandHistory := commandHistory t;
     currentCommand := c;
     showCursor := showCursor t;
     inputHistory := inputHistory t;
     historyIndex := historyIndex t |}.

Definition setHistoryIndex (i : Z) (t : Terminal) : Terminal :=
  {| commandHistory := commandHistory t;
     currentCommand := currentCommand t;
     showCursor := showCursor t;
     inputHistory := inputHistory t;
     historyIndex := i |}.

Definition setShowCursor (b : bool) (t : Terminal) : Terminal :=
  {| commandHistory := commandHistory t;
     currentCommand := currentCommand t;
     showCursor := b;
     inputHistory := inputHistory t;
     historyIndex := historyIndex t |}.

(** [availableCommands.filter((cmd) => cmd.startsWith(prefix))] *)
Definition matching (prefix : string) : list string :=
  filter (fun cmd => String.prefix prefix cmd) availableCommands.

Definition handleTabComplete (t : Terminal) : outcome Terminal :=
  match currentCommand t with
  | None => Throws
  | Some typed =>
      let matches := matching (toLowerCase typed) in
      if Nat.eqb (List.length matches) 1
      then Returns (setCurrentCommand (nth_error matches 0) t)
      else Returns t
  end.

(** The [onKeyDown] of the input.  The second component tells whether
    [e.preventDefault()] was called. *)
Definition handleKeyDown (key : string) (t : Terminal)
    : outcome (Terminal * bool) :=
  if String.eqb key "Enter" then
    match currentCommand t with
    | None => Throws
    | Some cmd => Returns (executeCommand cmd t, false)
    end
  else if String.eqb key "Tab" then
    match handleTabComplete t with
    | Throws => Throws
    | Returns t' => Returns (t', true)
    end
  else if String.eqb key "ArrowUp" then
    if Z.of_nat (List.length (inputHistory t)) >? 0 then
      let newIndex :=
        if historyIndex t =? -1
        then Z.of_nat (List.length (inputHistory t)) - 1
        else Z.max 0 (historyIndex t - 1) in
      Returns (setCurrentCommand (at_index (inputHistory t) newIndex)
                 (setHistoryIndex newIndex t), true)
    else Returns (t, true)
  else if String.eqb key "ArrowDown" then
    if negb (historyIndex t =? -1) then
      let newIndex := historyIndex t + 1 in
      if newIndex >=? Z.of_nat (List.length (inputHistory t)) then
        Returns (setCurrentCommand (Some "") (setHistoryIndex (-1) t), true)
      else
        Returns (setCurrentCommand (at_index (inputHistory t) newIndex)
                   (setHistoryIndex newIndex t), true)
    else Returns (t, true)
  else Returns (t, false).

(** What reaches the component: a key pressed in the input, an edit of the
    input ([onChange] with the new value) or a firing of the cursor
    interval. *)
Inductive Event : Type :=
  | KeyDown (key : string)
  | Change (value : string)
  | CursorBlink.

Definition step (e : Event) (t : Terminal) : outcome Terminal :=
  match e with
  | KeyDown key =>
      match handleKeyDown key t with
      | Throws => Throws
      | Returns (t', _) => Returns t'
      end
  | Change value => Returns (setCurrentCommand (Some value) t)
  | CursorBlink => Returns (setShowCursor (negb (showCursor t)) t)
  end.

Fixpoint run (events : list Event) (t : Terminal) : outcome Terminal :=
  match events with
  | [] => Returns t
  | e :: events' =>
      match step e t with
      | Throws => Throws
      | Returns t' => run events' t'
      end
  end.

Inductive reachable : Terminal -> Prop :=
  | reachable_initial : reachable initial
  | reachable_step e t t' :
      reachable t -> step e t = Returns t' -> reachable t'.

(** What every reachable state satisfies: the input holds a string, the
    history index is -1 or an index of [inputHistory], no recorded input
    is empty or [clear], and the screen holds no more entries than were
    recorded. *)
Record invariant (t : Terminal) : Prop := {
  inv_command : currentCommand t <> None;
  inv_index :
    historyIndex t = -1
    \/ 0 <= historyIndex t < Z.of_nat (List.length (inputHistory t));
  inv_recorded :
    Forall (fun c => c <> "" /\ c <> "clear"
                     /\ exists cmd, c = toLowerCase (trim cmd))
           (inputHistory t);
  inv_screen :
    (List.length (commandHistory t) <= List.length (inputHistory t))%nat
}.

End Builtins.

(** The two built-ins on ASCII text, to run the handlers on examples:
    letters [A] to [Z] go to lower case, blanks are dropped at both ends. *)
Definition ascii_lower (c : Ascii.ascii) : Ascii.ascii :=
  let n := Ascii.nat_of_ascii c in
  if andb (Nat.leb 65 n) (Nat.leb n 90)
  then Ascii.ascii_of_nat (n + 32) else c.

Fixpoint ascii_toLowerCase (s : string) : string :=
  match s with
  | EmptyString => EmptyString
  | String c s' => String (ascii_lower c) (ascii_toLowerCase s')
  end.

Definition is_blank (c : Ascii.ascii) : bool :=
  let n := Ascii.nat_of_ascii c in
  Nat.eqb n 32 || (Nat.leb 9 n && Nat.leb n 13).

Fixpoint trim_start (s : string) : string :=
  match s with
  | EmptyString => EmptyString
  | String c s' => if is_blank c then trim_start s' else s
  end.

Fixpoint trim_end (s : string) : string :=
  match s with
  | EmptyString => EmptyString
  | String c s' =>
      match trim_end s' with
      | EmptyString => if is_blank c then EmptyString else String c EmptyString
      | rest => String c rest
      end
  end.

Definition ascii_trim (s : string) : string := trim_end (trim_start s).

(** The state after typing ["  LS "], Enter, typing ["Cat Help.txt"],
    Enter. *)
Definition two_commands : Terminal :=
  {| commandHistory :=
       [{| command := "  LS "; output := LsOutput |};
        {| command := "Cat Help.txt"; output := HelpOutput |}];
     currentCommand := Some "";
     showCursor := true;
     inputHistory := ["ls"; "cat help.txt"];
     historyIndex := -1 |}.

End TerminalCard.

(** * SnakeGame: the game loop of the terminal card's snake game

    A shallow embedding of the [SnakeGame] component of
    [src/components/TerminalCard.tsx] (the second document of that file):
    its six state cells, the [generateFood] search, the [moveSnake] state
    updater together with the zero-delay timers it schedules, the
    [handleKeyDown] listener, the derived [currentSpeed] and [renderGrid].

    Modelling conventions.
    - Coordinates, the score and the high score are JavaScript numbers that
      only ever hold integers here; they are modelled in [Z].
    - [Math.floor(Math.random() * GRID_WIDTH)] and its [GRID_HEIGHT] twin are
      external: a random source [nat -> Position] supplies, for the k-th
      iteration of the [do ... while] loop, the object literal built there.
      Such a literal always lies in the grid ([draws_in_grid]).
    - The [do ... while] loop is run with fuel; [OutOfFuel] stands for the
      loop still spinning after that many iterations.
    - A render of the component fixes the values its closures see.  The
      interval callback and the timers it schedules all belong to the render
      that installed the interval, so [generateFood] called from the food
      timer tests the snake of that render, which is the snake [moveSnake]
      received as [prevSnake].
    - The timers scheduled with delay 0 by a tick fire before the next
      interval or key event, so a tick together with its timer is one
      transition of the game. *)
Module SnakeGame.

Local Open Scope Z_scope.

(** ** Data *)

Inductive Direction : Type := UP | DOWN | LEFT | RIGHT.

Record Position : Type := mkPosition { x : Z; y : Z }.

Definition GRID_WIDTH : Z := 30.
Definition GRID_HEIGHT : Z := 15.
Definition INITIAL_SPEED : Z := 150.
Definition MIN_SPEED : Z := 60.
Definition SPEED_DECREASE_PER_FOOD : Z := 5.

(** The six [useState] cells of the component. *)
Record Game : Type := mkGame {
  snake : list Position;
  food : Position;
  direction : Direction;
  gameOver : bool;
  score : Z;
  isPaused : bool
}.

(** The initial values handed to [useState]. *)
Definition initial : Game :=
  {| snake := [mkPosition 15 7];
     food := mkPosition 20 7;
     direction := RIGHT;
     gameOver := false;
     score := 0;
     isPaused := false |}.

(** What a computation of the component can end in: a value, the
    [TypeError] of reading a field of [undefined], or a loop that has not
    left after the fuel it was given. *)
Inductive result (A : Type) : Type :=
  | Done (a : A)
  | TypeError
  | OutOfFuel.
Arguments Done {A} a.
Arguments TypeError {A}.
Arguments OutOfFuel {A}.

(** ** Comparisons *)

(** [direction !== "DOWN"] and the like compare two tags. *)
Definition Direction_eqb (a b : Direction) : bool :=
  match a, b with
  | UP, UP | DOWN, DOWN | LEFT, LEFT | RIGHT, RIGHT => true
  | _, _ => false
  end.

(** [a.x === b.x && a.y === b.y] *)
Definition same_cell (a b : Position) : bool :=
  (x a =? x b) && (y a =? y b).

(** [snake.some((segment) => segment.x === p.x && segment.y === p.y)] *)
Definition occupies (snake : list Position) (p : Position) : bool :=
  existsb (fun segment => same_cell segment p) snake.

(** ** generateFood *)

Definition RandomSource : Type := nat -> Position.

(** Every literal [{x: floor(random * 30), y: floor(random * 15)}] is a
    cell of the grid. *)
Definition in_grid (p : Position) : Prop :=
  0 <= x p < GRID_WIDTH /\ 0 <= y p < GRID_HEIGHT.

Definition draws_in_grid (random : RandomSource) : Prop :=
  forall k, in_grid (random k).

(** The [do { newFood = ... } while (snake.some(...))] loop: draw, and draw
    again as long as the draw lies on the snake captured by the callback. *)
Fixpoint generateFood (fuel : nat) (random : RandomSource)
    (snake : list Position) : option Position :=
  match fuel with
  | O => None
  | S fuel' =>
      let newFood := random O in
      if occupies snake newFood
      then generateFood fuel' (fun k => random (S k)) snake
      else Some newFood
  end.

(** ** resetGame *)

Definition resetGame (g : Game) : Game :=
  {| snake := [mkPosition 15 7];
     food := mkPosition 20 7;
     direction := RIGHT;
     gameOver := false;
     score := 0;
     isPaused := false |}.

(** ** handleKeyDown *)

Definition setDirection (d : Direction) (g : Game) : Game :=
  {| snake := snake g; food := food g; direction := d;
     gameOver := gameOver g; score := score g; isPaused := isPaused g |}.

Definition setIsPaused (b : bool) (g : Game) : Game :=
  {| snake := snake g; food := food g; direction := direction g;
     gameOver := gameOver g; score := score g; isPaused := b |}.

Definition setGameOver (b : bool) (g : Game) : Game :=
  {| snake := snake g; food := food g; direction := direction g;
     gameOver := b; score := score g; isPaused := isPaused g |}.

Definition setSnake (s : list Position) (g : Game) : Game :=
  {| snake := s; food := food g; direction := direction g;
     gameOver := gameOver g; score := score g; isPaused := isPaused g |}.

Definition setScore (n : Z) (g : Game) : Game :=
  {| snake := snake g; food := food g; direction := direction g;
     gameOver := gameOver g; score := n; isPaused := isPaused g |}.

Definition setFood (p : Position) (g : Game) : Game :=
  {| snake := snake g; food := p; direction := direction g;
     gameOver := gameOver g; score := score g; isPaused := isPaused g |}.

(** [e.key === a || e.key === b || e.key === c] *)
Definition key_in (key a b c : string) : bool :=
  String.eqb key a || String.eqb key b || String.eqb key c.

(** The [keydown] listener.  The second component tells whether [onExit]
    was called. *)
Definition handleKeyDown (key : string) (g : Game) : Game * bool :=
  if key_in key "Escape" "q" "Q" then (g, true)
  else if gameOver g then
    (if String.eqb key "r" || String.eqb key "R" then resetGame g else g,
     false)
  else if String.eqb key "p" || String.eqb key "P" then
    (setIsPaused (negb (isPaused g)) g, false)
  else if key_in key "ArrowUp" "w" "W" then
    (if negb (Direction_eqb (direction g) DOWN) then setDirection UP g else g,
     false)
  else if key_in key "ArrowDown" "s" "S" then
    (if negb (Direction_eqb (direction g) UP) then setDirection DOWN g else g,
     false)
  else if key_in key "ArrowLeft" "a" "A" then
    (if negb (Direction_eqb (direction g) RIGHT) then setDirection LEFT g
     else g,
     false)
  else if key_in key "ArrowRight" "d" "D" then
    (if negb (Direction_eqb (direction g) LEFT) then setDirection RIGHT g
     else g,
     false)
  else (g, false).

(** ** currentSpeed *)

(** [Math.max(MIN_SPEED, INITIAL_SPEED - Math.floor(score / 10) *
    SPEED_DECREASE_PER_FOOD)]; on integers [Math.floor (score / 10)] is the
    floored quotient [score / 10] of [Z]. *)
Definition currentSpeed (score : Z) : Z :=
  Z.max MIN_SPEED
        (INITIAL_SPEED - (score / 10) * SPEED_DECREASE_PER_FOOD).

(** ** moveSnake *)

(** The [switch (direction)] that builds [newHead]. *)
Definition newHead (direction : Direction) (head : Position) : Position :=
  match direction with
  | UP => {| x := x head; y := y head - 1 |}
  | DOWN => {| x := x head; y := y head + 1 |}
  | LEFT => {| x := x head - 1; y := y head |}
  | RIGHT => {| x := x head + 1; y := y head |}
  end.

(** The wall test on [newHead]. *)
Definition hits_wall (p : Position) : bool :=
  (x p <? 0) || (x p >=? GRID_WIDTH) || (y p <? 0) || (y p >=? GRID_HEIGHT).

(** [prevSnake.length * 10 - 10] *)
Definition finalScore (prevSnake : list Position) : Z :=
  Z.of_nat (List.length prevSnake) * 10 - 10.

(** The two callbacks the updater hands to [setTimeout(..., 0)]. *)
Inductive Timer : Type :=
  | GameOverTimer (finalScore : Z)
  | FoodTimer.

(** The updater passed to [setSnake]: from [prevSnake] (and the
    [direction] and [food] of the render) the next snake and the timer it
    schedules, if any.  [prevSnake[0]] of an empty array is [undefined]
    and reading its [x] throws. *)
Definition moveSnake (direction : Direction) (food : Position)
    (prevSnake : list Position) : result (list Position * option Timer) :=
  match prevSnake with
  | [] => TypeError
  | head :: _ =>
      let newHead := newHead direction head in
      if hits_wall newHead then
        Done (prevSnake, Some (GameOverTimer (finalScore prevSnake)))
      else if occupies prevSnake newHead then
        Done (prevSnake, Some (GameOverTimer (finalScore prevSnake)))
      else
        let newSnake := newHead :: prevSnake in
        if (x newHead =? x food) && (y newHead =? y food) then
          Done (newSnake, Some FoodTimer)
        else
          Done (removelast newSnake, None)
  end.

(** Running a timer.  [renderSnake] is the snake of the render whose
    closures the timer belongs to (the one [generateFood] tests);
    [highScore] is the prop of that render.  The list holds the arguments
    [onHighScore] was called with. *)
Definition runTimer (renderSnake : list Position) (highScore : Z)
    (fuel : nat) (random : RandomSource) (t : Timer) (g : Game)
    : result (Game * list Z) :=
  match t with
  | GameOverTimer finalScore =>
      Done (setGameOver true g,
            if finalScore >? highScore then [finalScore] else [])
  | FoodTimer =>
      match generateFood fuel random renderSnake with
      | None => OutOfFuel
      | Some newFood => Done (setFood newFood (setScore (score g + 10) g), [])
      end
  end.

(** One firing of the interval, with the timer it schedules.  The effect
    installs no interval when [gameOver || isPaused]. *)
Definition tick (highScore : Z) (fuel : nat) (random : RandomSource)
    (g : Game) : result (Game * list Z) :=
  if gameOver g || isPaused g then Done (g, [])
  else
    match moveSnake (direction g) (food g) (snake g) with
    | TypeError => TypeError
    | OutOfFuel => OutOfFuel
    | Done (newSnake, None) => Done (setSnake newSnake g, [])
    | Done (newSnake, Some t) =>
        runTimer (snake g) highScore fuel random t (setSnake newSnake g)
    end.

(** ** Events and reachable states *)

(** What the host delivers to the component: a firing of the interval
    (with the [highScore] prop of the current render and the random draws
    its food search would consume) or a [keydown]. *)
Inductive Event : Type :=
  | Tick (highScore : Z) (fuel : nat) (random : RandomSource)
  | KeyDown (key : string).

Definition event_ok (e : Event) : Prop :=
  match e with
  | Tick _ _ random => draws_in_grid random
  | KeyDown _ => True
  end.

Definition step (e : Event) (g : Game) : result Game :=
  match e with
  | Tick highScore fuel random =>
      match tick highScore fuel random g with
      | Done (g', _) => Done g'
      | TypeError => TypeError
      | OutOfFuel => OutOfFuel
      end
  | KeyDown key => Done (fst (handleKeyDown key g))
  end.

Fixpoint run (events : list Event) (g : Game) : result Game :=
  match events with
  | [] => Done g
  | e :: events' =>
      match step e g with
      | Done g' => run events' g'
      | TypeError => TypeError
      | OutOfFuel => OutOfFuel
      end
  end.

Inductive reachable : Game -> Prop :=
  | reachable_initial : reachable initial
  | reachable_step e g g' :
      reachable g -> event_ok e -> step e g = Done g' -> reachable g'.

(** ** Vocabulary of the properties *)

(** The game is running: the interval is installed. *)
Definition running (g : Game) : Prop :=
  gameOver g = false /\ isPaused g = false.

Definition opposite (d : Direction) : Direction :=
  match d with
  | UP => DOWN
  | DOWN => UP
  | LEFT => RIGHT
  | RIGHT => LEFT
  end.

(** The keys of each [case] group of the [switch (e.key)]. *)
Definition turn_keys (d : Direction) : list string :=
  match d with
  | UP => ["ArrowUp"; "w"; "W"]
  | DOWN => ["ArrowDown"; "s"; "S"]
  | LEFT => ["ArrowLeft"; "a"; "A"]
  | RIGHT => ["ArrowRight"; "d"; "D"]
  end%string.

(** The head a tick would move to. *)
Definition next_head (g : Game) : option Position :=
  match snake g with
  | [] => None
  | head :: _ => Some (newHead (direction g) head)
  end.

(** The head a tick would move to is off the grid or on the snake as it
    is before the move. *)
Definition collides (g : Game) : bool :=
  match next_head g with
  | None => false
  | Some p => hits_wall p || occupies (snake g) p
  end.

(** Every cell of the grid, row by row. *)
Definition all_cells : list Position :=
  flat_map (fun r => map (fun c => mkPosition (Z.of_nat c) (Z.of_nat r))
                         (seq 0 (Z.to_nat GRID_WIDTH)))
           (seq 0 (Z.to_nat GRID_HEIGHT)).

(** What every reachable state satisfies: the snake is not empty, its
    segments are cells of the grid and pairwise distinct, the food is a
    cell of the grid, and the score is ten times the number of segments
    after the first. *)
Record invariant (g : Game) : Prop := {
  inv_nonempty : snake g <> [];
  inv_distinct : NoDup (snake g);
  inv_snake_in_grid : Forall in_grid (snake g);
  inv_food_in_grid : in_grid (food g);
  inv_score : score g = finalScore (snake g)
}.

(** A source whose every draw is the cell [p]. *)
Definition always (p : Position) : RandomSource := fun _ => p.

(** The state four ticks after the start: the head one cell left of the
    food. *)
Definition about_to_eat : Game :=
  {| snake := [mkPosition 19 7];
     food := mkPosition 20 7;
     direction := RIGHT;
     gameOver := false;
     score := 0;
     isPaused := false |}.

(** The events of a short game: five ticks to the food at (20, 7), whose
    search draws (21, 7); one more tick eats that, its search draws
    (21, 5); then ArrowUp and a tick. *)
Definition short_game : list Event :=
  repeat (Tick 0 1 (always (mkPosition 21 7))) 5
  ++ [Tick 0 1 (always (mkPosition 21 5)); KeyDown "ArrowUp";
      Tick 0 1 (always (mkPosition 21 5))].

(** The state at the end of [short_game]: three segments around a
    corner. *)
Definition after_turn : Game :=
  {| snake := [mkPosition 21 6; mkPosition 21 7; mkPosition 20 7];
     food := mkPosition 21 5;
     direction := UP;
     gameOver := false;
     score := 20;
     isPaused := false |}.

(** ** renderGrid *)

(** A row of the grid is an array of strings; [None] is a hole left by an
    assignment beyond its end. *)
Definition Row : Type := list (option string).
Definition Grid : Type := list Row.

Fixpoint update {A : Type} (l : list A) (n : nat) (v : A) : list A :=
  match l, n with
  | [], _ => []
  | _ :: l', O => v :: l'
  | a :: l', S n' => a :: update l' n' v
  end.

(** [row[i] = v] for an integer [i]: below 0 it only adds a property and
    no element, inside the row it replaces the element, beyond the end it
    lengthens the row to [i + 1] and leaves holes. *)
Definition assign (row : Row) (i : Z) (v : string) : Row :=
  if i <? 0 then row
  else if i <? Z.of_nat (List.length row)
       then update row (Z.to_nat i) (Some v)
       else row ++ repeat None (Z.to_nat i - List.length row) ++ [Some v].

(** [grid[j][i] = v]: outside the rows [grid[j]] is [undefined] and the
    assignment throws. *)
Definition assign_cell (grid : Grid) (j i : Z) (v : string) : result Grid :=
  if (j <? 0) || (j >=? Z.of_nat (List.length grid)) then TypeError
  else
    match nth_error grid (Z.to_nat j) with
    | None => TypeError
    | Some row => Done (update grid (Z.to_nat j) (assign row i v))
    end.

(** The two [for] loops: [GRID_HEIGHT] rows of [GRID_WIDTH] blanks. *)
Definition empty_grid : Grid :=
  map (fun _ => map (fun _ => Some " "%string) (seq 0 (Z.to_nat GRID_WIDTH)))
      (seq 0 (Z.to_nat GRID_HEIGHT)).

(** [snake.forEach((segment, index) => ...)], from [index] on. *)
Fixpoint place_snake (index : nat) (segments : list Position) (grid : Grid)
    : result Grid :=
  match segments with
  | [] => Done grid
  | segment :: rest =>
      if (y segment >=? 0) && (y segment <? GRID_HEIGHT)
         && (x segment >=? 0) && (x segment <? GRID_WIDTH)
      then
        match assign_cell grid (y segment) (x segment)
                (if Nat.eqb index 0 then "█" else "▓")%string with
        | Done grid' => place_snake (S index) rest grid'
        | TypeError => TypeError
        | OutOfFuel => OutOfFuel
        end
      else place_snake (S index) rest grid
  end.

Definition renderGrid (g : Game) : result Grid :=
  match assign_cell empty_grid (y (food g)) (x (food g)) "●" with
  | Done grid => place_snake 0 (snake g) grid
  | TypeError => TypeError
  | OutOfFuel => OutOfFuel
  end.

(** [grid[p.y][p.x]] for a cell [p] of the grid; [None] where there is no
    element. *)
Definition cell (grid : Grid) (p : Position) : option string :=
  match nth_error grid (Z.to_nat (y p)) with
  | Some row =>
      match nth_error row (Z.to_nat (x p)) with
      | Some c => c
      | None => None
      end
  | None => None
  end.

(** What a cell of the grid shows for a game: a body segment, else the
    head, else the food, else a blank. *)
Definition shown (g : Game) (p : Position) : string :=
  if occupies (tl (snake g)) p then "▓"
  else if occupies (firstn 1 (snake g)) p then "█"
  else if same_cell (food g) p then "●"
  else " ".

(** All rows are there and full: [GRID_HEIGHT] rows of [GRID_WIDTH]
    strings, no hole. *)
Definition full_grid (grid : Grid) : Prop :=
  List.length grid = Z.to_nat GRID_HEIGHT
  /\ Forall (fun row : Row =>
               List.length row = Z.to_nat GRID_WIDTH
               /\ Forall (fun c => c <> None) row) grid.

(** Two cells next to each other in a row or in a column. *)
Definition adjacent (p q : Position) : Prop :=
  Z.abs (x p - x q) + Z.abs (y p - y q) = 1.

(** Each segment is next to the one that follows it. *)
Fixpoint chain (segments : list Position) : Prop :=
  match segments with
  | p :: (q :: _) as rest => adjacent p q /\ chain rest
  | _ => True
  end.

(** * Properties *)

(** ** Cells and occupation *)

Lemma same_cell_eq (a b : Position) : same_cell a b = true <-> a = b.
Proof.
  destruct a as [ax ay], b as [bx by_]; unfold same_cell; simpl.
  rewrite andb_true_iff, !Z.eqb_eq.
  split.
  - intros [-> ->]; reflexivity.
  - intros E; injection E; auto.
Qed.

Lemma occupies_In (s : list Position) (p : Position) :
  occupies s p = true <-> In p s.
Proof.
  unfold occupies. rewrite existsb_exists. split.
  - intros [q [Hq E]]. apply same_cell_eq in E. now subst.
  - intros H. exists p. split; [assumption | now apply same_cell_eq].
Qed.

Lemma occupies_not_In (s : list Position) (p : Position) :
  occupies s p = false <-> ~ In p s.
Proof.
  rewrite <- occupies_In. destruct (occupies s p); split; congruence.
Qed.

Lemma food_test_same_cell (p f : Position) :
  (x p =? x f) && (y p =? y f) = same_cell p f.
Proof. reflexivity. Qed.

(** ** currentSpeed *)

(** C8: for every score [s >= 0], [currentSpeed s] is
    [max 60 (150 - floor (s / 10) * 5)]; it never drops below 60 and it
    does not increase when the score grows. *)
Theorem currentSpeed_formula_floor_monotone (s : Z) (Hs : 0 <= s) :
  currentSpeed s = Z.max 60 (150 - (s / 10) * 5)
  /\ 60 <= currentSpeed s
  /\ (forall s', s <= s' -> currentSpeed s' <= currentSpeed s).
Proof.
  unfold currentSpeed, MIN_SPEED, INITIAL_SPEED, SPEED_DECREASE_PER_FOOD.
  split; [reflexivity | split; [lia |]].
  intros s' Hle.
  assert (s / 10 <= s' / 10) by (apply Z.div_le_mono; lia).
  lia.
Qed.

Lemma currentSpeed_formula_floor_monotone_witness :
  currentSpeed 130 = 85 /\ currentSpeed 200 <= currentSpeed 130.
Proof.
  destruct (currentSpeed_formula_floor_monotone 130 ltac:(lia)) as [E [_ M]].
  split; [rewrite E; reflexivity | apply M; lia].
Defined.

(** ** Key handling *)

Ltac key_cases H :=
  repeat (destruct H as [H | H]; [subst | ]); try contradiction.

(** C7: a key of the group of direction [r] leaves the game as it is when
    the game is over, and also when [r] is the exact opposite of the
    stored direction; every other request stores [r] and changes nothing
    else. *)
Theorem handleKeyDown_turn (g : Game) (r : Direction) (key : string)
    (Hkey : In key (turn_keys r)) :
  handleKeyDown key g =
    (if gameOver g then g
     else if Direction_eqb r (opposite (direction g)) then g
     else setDirection r g,
     false).
Proof.
  destruct r; simpl in Hkey; key_cases Hkey;
    unfold handleKeyDown; simpl;
    destruct (gameOver g); try reflexivity;
    destruct (direction g); reflexivity.
Qed.

Lemma handleKeyDown_turn_witness :
  direction (fst (handleKeyDown "ArrowDown" (setDirection UP initial))) = UP
  /\ direction (fst (handleKeyDown "a" (setDirection UP initial))) = LEFT
  /\ handleKeyDown "w" (setGameOver true initial)
     = (setGameOver true initial, false).
Proof.
  split; [| split].
  - rewrite (handleKeyDown_turn (setDirection UP initial) DOWN "ArrowDown");
      [reflexivity | simpl; auto].
  - rewrite (handleKeyDown_turn (setDirection UP initial) LEFT "a");
      [reflexivity | simpl; auto].
  - rewrite (handleKeyDown_turn (setGameOver true initial) UP "w");
      [reflexivity | simpl; auto].
Defined.

Lemma tick_idle (highScore : Z) (fuel : nat) (random : RandomSource)
    (g : Game) :
  gameOver g = true \/ isPaused g = true ->
  tick highScore fuel random g = Done (g, []).
Proof.
  intros H. unfold tick.
  replace (gameOver g || isPaused g) with true; [reflexivity |].
  symmetry. apply orb_true_iff. exact H.
Qed.




(** C10: two direction keys handled between two ticks can store the exact
    opposite of the direction the last tick moved in, because each request
    is checked against the stored direction only: after a tick moving
    RIGHT, ArrowUp then ArrowLeft store LEFT; and from every state that is
    not over some two direction keys reverse the stored direction. *)
Theorem two_turns_reverse (g : Game) (Hlive : gameOver g = false) :
  run [Tick 0 1 (always (mkPosition 0 0));
       KeyDown "ArrowUp"; KeyDown "ArrowLeft"] initial
    = Done {| snake := [mkPosition 16 7]; food := mkPosition 20 7;
              direction := LEFT; gameOver := false; score := 0;
              isPaused := false |}
  /\ exists r1 r2 k1 k2,
       In k1 (turn_keys r1) /\ In k2 (turn_keys r2)
       /\ direction (fst (handleKeyDown k2 (fst (handleKeyDown k1 g))))
          = opposite (direction g).
Proof.
  split; [reflexivity |].
  destruct (direction g) eqn:D.
  - exists LEFT, DOWN, "a"%string, "s"%string.
    repeat split; [simpl; auto | simpl; auto |].
    unfold handleKeyDown; simpl. rewrite Hlive, D. simpl. now rewrite Hlive.
  - exists LEFT, UP, "a"%string, "w"%string.
    repeat split; [simpl; auto | simpl; auto |].
    unfold handleKeyDown; simpl. rewrite Hlive, D. simpl. now rewrite Hlive.
  - exists UP, RIGHT, "w"%string, "d"%string.
    repeat split; [simpl; auto | simpl; auto |].
    unfold handleKeyDown; simpl. rewrite Hlive, D. simpl. now rewrite Hlive.
  - exists UP, LEFT, "w"%string, "a"%string.
    repeat split; [simpl; auto | simpl; auto |].
    unfold handleKeyDown; simpl. rewrite Hlive, D. simpl. now rewrite Hlive.
Qed.

Lemma two_turns_reverse_witness :
  exists r1 r2 k1 k2,
    In k1 (turn_keys r1) /\ In k2 (turn_keys r2)
    /\ direction (fst (handleKeyDown k2 (fst (handleKeyDown k1 initial))))
       = LEFT.
Proof.
  exact (proj2 (two_turns_reverse initial eq_refl)).
Defined.

(** ** The food search *)

Lemma generateFood_Some (fuel : nat) : forall random s p,
  generateFood fuel random s = Some p ->
  exists k, (k < fuel)%nat /\ random k = p /\ occupies s p = false
            /\ forall j, (j < k)%nat -> occupies s (random j) = true.
Proof.
  induction fuel as [| fuel IH]; intros random s p H; simpl in H.
  - discriminate.
  - destruct (occupies s (random O)) eqn:Hocc.
    + apply IH in H. destruct H as [k [Hk [Hr [Hp Hbefore]]]].
      exists (S k). repeat split; try assumption; try lia.
      intros [| j] Hj; [assumption | apply Hbefore; lia].
    + injection H as <-. exists O. repeat split; try assumption; lia.
Qed.

Lemma generateFood_first_free (fuel : nat) : forall random s k,
  occupies s (random k) = false ->
  (forall j, (j < k)%nat -> occupies s (random j) = true) ->
  (k < fuel)%nat ->
  generateFood fuel random s = Some (random k).
Proof.
  induction fuel as [| fuel IH]; intros random s k Hfree Hbefore Hk.
  - lia.
  - simpl. destruct k as [| k].
    + now rewrite Hfree.
    + rewrite (Hbefore O) by lia.
      apply (IH (fun i => random (S i))); try assumption; try lia.
      intros j Hj. apply Hbefore. lia.
Qed.

Lemma generateFood_None (fuel : nat) : forall random s,
  (forall j, (j < fuel)%nat -> occupies s (random j) = true) ->
  generateFood fuel random s = None.
Proof.
  induction fuel as [| fuel IH]; intros random s Hall; simpl.
  - reflexivity.
  - rewrite (Hall O) by lia. apply IH. intros j Hj. apply Hall. lia.
Qed.

(** Among the draws before index [n], the index of the first one that is
    off the snake. *)
Lemma first_free_draw (random : RandomSource) (s : list Position) (n : nat) :
  occupies s (random n) = false ->
  exists k, (k <= n)%nat /\ occupies s (random k) = false
            /\ forall j, (j < k)%nat -> occupies s (random j) = true.
Proof.
  induction n as [n IH] using lt_wf_ind. intros Hfree.
  destruct (forallb (fun j => occupies s (random j)) (seq 0 n)) eqn:Hall.
  - exists n. repeat split; [lia | assumption |].
    intros j Hj. rewrite forallb_forall in Hall. apply Hall.
    apply in_seq. lia.
  - assert (exists j, (j < n)%nat /\ occupies s (random j) = false)
      as [j [Hj Hjfree]].
    { destruct (existsb (fun j => negb (occupies s (random j))) (seq 0 n))
        eqn:Hex.
      - apply existsb_exists in Hex. destruct Hex as [j [Hin Hneg]].
        exists j. apply in_seq in Hin. split; [lia |].
        now apply negb_true_iff.
      - exfalso. rewrite <- not_true_iff_false in Hall. apply Hall.
        apply forallb_forall. intros j Hin.
        destruct (occupies s (random j)) eqn:E; [reflexivity |].
        rewrite <- not_true_iff_false in Hex. exfalso. apply Hex.
        apply existsb_exists. exists j. split; [assumption |].
        now rewrite E. }
    destruct (IH j Hj Hjfree) as [k [Hk [Hkfree Hbefore]]].
    exists k. repeat split; [lia | assumption | assumption].
Qed.

Lemma generateFood_returns (random : RandomSource) (s : list Position)
    (n fuel : nat) :
  occupies s (random n) = false -> (n < fuel)%nat ->
  exists p, generateFood fuel random s = Some p /\ occupies s p = false.
Proof.
  intros Hfree Hn.
  destruct (first_free_draw random s n Hfree) as [k [Hk [Hkfree Hbefore]]].
  exists (random k). split; [| assumption].
  apply generateFood_first_free; try assumption. lia.
Qed.

Lemma in_grid_all_cells (p : Position) : in_grid p -> In p all_cells.
Proof.
  destruct p as [px py]. intros [Hx Hy].
  unfold GRID_WIDTH, GRID_HEIGHT in Hx, Hy. simpl in Hx, Hy.
  unfold all_cells. apply in_flat_map.
  exists (Z.to_nat py). split.
  - apply in_seq. unfold GRID_HEIGHT. lia.
  - apply in_map_iff. exists (Z.to_nat px). split.
    + f_equal; lia.
    + apply in_seq. unfold GRID_WIDTH. lia.
Qed.

(** The loop of [generateFood] on any snake: it returns exactly when some
    draw falls off the snake it tests, the result being the first such
    draw, reached after as many iterations as draws were rejected before
    it; with less fuel than that it is still looping. *)
Theorem generateFood_returns_iff_free_draw (random : RandomSource)
    (s : list Position) :
  ((exists fuel p, generateFood fuel random s = Some p)
   <-> (exists k, occupies s (random k) = false))
  /\ (forall fuel p,
        generateFood fuel random s = Some p ->
        exists k, (k < fuel)%nat /\ random k = p /\ occupies s p = false
                  /\ forall j, (j < k)%nat -> occupies s (random j) = true)
  /\ (forall fuel,
        (forall j, (j < fuel)%nat -> occupies s (random j) = true) ->
        generateFood fuel random s = None).
Proof.
  split; [split | split].
  - intros [fuel [p H]]. apply generateFood_Some in H.
    destruct H as [k [_ [Hr [Hp _]]]]. exists k. now rewrite Hr.
  - intros [k Hk].
    destruct (generateFood_returns random s k (S k) Hk) as [p [Hp _]];
      [lia |].
    now exists (S k), p.
  - intros fuel p. apply generateFood_Some.
  - intros fuel. apply generateFood_None.
Qed.

Lemma generateFood_returns_iff_free_draw_witness :
  exists fuel p,
    generateFood fuel
      (fun k => if Nat.ltb k 2 then mkPosition 15 7 else mkPosition 4 9)
      [mkPosition 15 7] = Some p.
Proof.
  apply (proj1 (generateFood_returns_iff_free_draw
                  (fun k => if Nat.ltb k 2 then mkPosition 15 7
                            else mkPosition 4 9)
                  [mkPosition 15 7])).
  exists 2%nat. reflexivity.
Defined.

(** ** One tick *)

Lemma setSnake_same (g : Game) : setSnake (snake g) g = g.
Proof. destruct g; reflexivity. Qed.

(** The three outcomes of a tick of a running game, by cases on the head
    it moves to. *)
Lemma tick_running (highScore : Z) (fuel : nat) (random : RandomSource)
    (g : Game) (head : Position) (tl : list Position) :
  running g -> snake g = head :: tl ->
  tick highScore fuel random g =
    let p := newHead (direction g) head in
    if hits_wall p || occupies (snake g) p then
      Done (setGameOver true g,
            if finalScore (snake g) >? highScore
            then [finalScore (snake g)] else [])
    else if same_cell p (food g) then
      match generateFood fuel random (snake g) with
      | None => OutOfFuel
      | Some newFood =>
          Done (setFood newFood
                  (setScore (score g + 10) (setSnake (p :: snake g) g)), [])
      end
    else Done (setSnake (removelast (p :: snake g)) g, []).
Proof.
  intros [Hover Hpaused] Hsnake. unfold tick.
  rewrite Hover, Hpaused. simpl orb. cbv iota.
  unfold moveSnake. rewrite Hsnake. cbv zeta.
  destruct (hits_wall (newHead (direction g) head)).
  - simpl. rewrite <- Hsnake, setSnake_same. reflexivity.
  - destruct (occupies (head :: tl) (newHead (direction g) head)).
    + simpl. rewrite <- Hsnake, setSnake_same. reflexivity.
    + rewrite food_test_same_cell.
      destruct (same_cell (newHead (direction g) head) (food g));
        reflexivity.
Qed.

Lemma collides_next_head (g : Game) (head : Position) (tl : list Position) :
  snake g = head :: tl ->
  collides g =
    hits_wall (newHead (direction g) head)
    || occupies (snake g) (newHead (direction g) head).
Proof. intros H. unfold collides, next_head. now rewrite H. Qed.

Lemma collides_nonempty (g : Game) :
  collides g = true -> exists head tl, snake g = head :: tl.
Proof.
  unfold collides, next_head. destruct (snake g) as [| head tl].
  - discriminate.
  - intros _. now exists head, tl.
Qed.

Lemma hits_wall_false (p : Position) : hits_wall p = false <-> in_grid p.
Proof.
  unfold hits_wall, in_grid, GRID_WIDTH, GRID_HEIGHT.
  rewrite !orb_false_iff, !Z.ltb_ge, !Z.geb_leb, !Z.leb_gt. lia.
Qed.

Lemma hits_wall_true (p : Position) : hits_wall p = true <-> ~ in_grid p.
Proof.
  rewrite <- hits_wall_false. destruct (hits_wall p); split; congruence.
Qed.

(** C4: a tick of a running game ends the game exactly when the cell one
    step from the head in the current direction (up is [y - 1], down
    [y + 1], left [x - 1], right [x + 1]) is off the 30 x 15 grid or holds
    a segment of the snake as it is before the move, head and tail
    included; the state it leaves is then the old one with only [gameOver]
    set (snake, food, direction, score, pause untouched), and such a tick
    always returns.  Without a collision the tick never throws and can
    fail to return only inside the food search. *)
Theorem tick_game_over_iff_collision (highScore : Z) (fuel : nat)
    (random : RandomSource) (g : Game) (head : Position)
    (tl : list Position)
    (Hrun : running g) (Hsnake : snake g = head :: tl) :
  let moved :=
    match direction g with
    | UP => {| x := x head; y := y head - 1 |}
    | DOWN => {| x := x head; y := y head + 1 |}
    | LEFT => {| x := x head - 1; y := y head |}
    | RIGHT => {| x := x head + 1; y := y head |}
    end in
  let collision :=
    (x moved < 0 \/ 30 <= x moved \/ y moved < 0 \/ 15 <= y moved)
    \/ In moved (head :: tl) in
  (collision ->
   exists calls,
     tick highScore fuel random g =
       Done ({| snake := head :: tl; food := food g;
                direction := direction g; gameOver := true;
                score := score g; isPaused := isPaused g |}, calls))
  /\ (forall g' calls,
        tick highScore fuel random g = Done (g', calls) ->
        (gameOver g' = true <-> collision))
  /\ (~ collision ->
      tick highScore fuel random g <> TypeError
      /\ (tick highScore fuel random g = OutOfFuel ->
          generateFood fuel random (snake g) = None))
  /\ (collides g = true <-> collision)
  /\ (collides g = true ->
      exists calls,
        tick highScore fuel random g = Done (setGameOver true g, calls)).
Proof.
  intros moved collision.
  pose proof (tick_running highScore fuel random g head tl Hrun Hsnake) as E.
  pose proof (collides_next_head g head tl Hsnake) as C.
  cbv zeta in E. rewrite <- C in E.
  assert (Hm : newHead (direction g) head = moved)
    by (unfold moved; destruct (direction g); reflexivity).
  assert (Hc : collides g = true <-> collision).
  { rewrite C, orb_true_iff, hits_wall_true, occupies_In, Hsnake, Hm.
    unfold collision, in_grid, GRID_WIDTH, GRID_HEIGHT.
    split; (intros [H | H]; [left; lia | now right]). }
  assert (Hover : setGameOver true g =
                  {| snake := head :: tl; food := food g;
                     direction := direction g; gameOver := true;
                     score := score g; isPaused := isPaused g |})
    by (unfold setGameOver; now rewrite Hsnake).
  clear C. rewrite <- Hc. destruct (collides g).
  - split; [intros _; eexists; rewrite <- Hover; exact E |].
    split.
    { intros g' calls H. rewrite E in H. injection H as <- _.
      simpl. tauto. }
    split; [intros H; exfalso; now apply H |].
    split; [tauto |]. intros _. eexists. exact E.
  - split; [discriminate |].
    assert (Hlive : forall g' calls,
               tick highScore fuel random g = Done (g', calls) ->
               gameOver g' = false).
    { intros g' calls H. rewrite E in H.
      destruct (same_cell (newHead (direction g) head) (food g)).
      - destruct (generateFood fuel random (snake g)); [| discriminate].
        injection H as <- _. simpl. apply Hrun.
      - injection H as <- _. simpl. apply Hrun. }
    split.
    { intros g' calls H. rewrite (Hlive g' calls H). tauto. }
    split.
    { intros _. rewrite E.
      destruct (same_cell (newHead (direction g) head) (food g));
        [| split; discriminate].
      destruct (generateFood fuel random (snake g));
        split; try discriminate; reflexivity. }
    split; [tauto | discriminate].
Qed.

Lemma tick_game_over_iff_collision_witness :
  (exists calls,
     tick 0 3 (always (mkPosition 1 1))
          (setSnake [mkPosition 29 7] initial)
     = Done ({| snake := [mkPosition 29 7]; food := mkPosition 20 7;
                direction := RIGHT; gameOver := true; score := 0;
                isPaused := false |}, calls))
  /\ (exists calls,
        tick 0 3 (always (mkPosition 1 1))
             (setSnake [mkPosition 5 5; mkPosition 5 6;
                        mkPosition 6 6; mkPosition 6 5] initial)
        = Done ({| snake := [mkPosition 5 5; mkPosition 5 6;
                             mkPosition 6 6; mkPosition 6 5];
                   food := mkPosition 20 7;
                   direction := RIGHT; gameOver := true; score := 0;
                   isPaused := false |}, calls)).
Proof.
  split.
  - apply (proj1 (tick_game_over_iff_collision 0 3
                    (always (mkPosition 1 1))
                    (setSnake [mkPosition 29 7] initial)
                    (mkPosition 29 7) []
                    (conj eq_refl eq_refl) eq_refl)).
    left. simpl. lia.
  - apply (proj1 (tick_game_over_iff_collision 0 3
                    (always (mkPosition 1 1))
                    (setSnake [mkPosition 5 5; mkPosition 5 6;
                               mkPosition 6 6; mkPosition 6 5] initial)
                    (mkPosition 5 5)
                    [mkPosition 5 6; mkPosition 6 6; mkPosition 6 5]
                    (conj eq_refl eq_refl) eq_refl)).
    right. simpl. auto.
Defined.

(** C5: a tick that collides (wall or self) with a snake of length [L]
    computes the final score [L * 10 - 10] and calls [onHighScore] with it
    exactly when it is strictly above the [highScore] it was given; for a
    snake of length 1 that score is 0. *)
Theorem collision_final_score (highScore : Z) (fuel : nat)
    (random : RandomSource) (g : Game)
    (Hrun : running g) (Hcol : collides g = true) :
  let L := Z.of_nat (List.length (snake g)) in
  finalScore (snake g) = L * 10 - 10
  /\ (exists calls,
        tick highScore fuel random g = Done (setGameOver true g, calls)
        /\ (highScore < L * 10 - 10 -> calls = [L * 10 - 10])
        /\ (L * 10 - 10 <= highScore -> calls = []))
  /\ (List.length (snake g) = 1%nat -> finalScore (snake g) = 0).
Proof.
  intros L. destruct (collides_nonempty g Hcol) as [head [tl Hsnake]].
  pose proof (tick_running highScore fuel random g head tl Hrun Hsnake) as E.
  cbv zeta in E. rewrite <- (collides_next_head g head tl Hsnake), Hcol in E.
  split; [reflexivity | split].
  - eexists. split; [exact E |]. fold L. unfold finalScore. fold L. split.
    + intros H. apply Z.lt_gt, Z.gtb_gt in H. now rewrite H.
    + intros H. destruct (L * 10 - 10 >? highScore) eqn:Hgt;
        [apply Z.gtb_gt in Hgt; lia | reflexivity].
  - intros H1. unfold finalScore. rewrite H1. reflexivity.
Qed.

Lemma collision_final_score_witness :
  tick 5 3 (always (mkPosition 1 1)) (setSnake [mkPosition 29 7] initial)
  = Done (setGameOver true (setSnake [mkPosition 29 7] initial), [])
  /\ finalScore [mkPosition 29 7] = 0.
Proof.
  destruct (collision_final_score 5 3 (always (mkPosition 1 1))
              (setSnake [mkPosition 29 7] initial)
              (conj eq_refl eq_refl) eq_refl)
    as [_ [[calls [E [_ Hle]]] H1]].
  split.
  - rewrite E. rewrite Hle; [reflexivity | simpl; lia].
  - apply H1. reflexivity.
Defined.

(** C6: when the head a tick moves to is the food cell and nothing is hit,
    the tick (whenever its food search returns, which it does as soon as a
    draw is off the old snake) adds exactly 10 to the score and exactly one
    segment to the snake: the new head is put in front and the tail stays. *)
Theorem eating_adds_ten_and_one_segment (highScore : Z) (fuel : nat)
    (random : RandomSource) (g : Game) (head : Position)
    (tl : list Position)
    (Hrun : running g) (Hsnake : snake g = head :: tl)
    (Hfree : collides g = false)
    (Hfood : same_cell (newHead (direction g) head) (food g) = true) :
  (forall g' calls,
      tick highScore fuel random g = Done (g', calls) ->
      score g' = score g + 10
      /\ snake g' = newHead (direction g) head :: head :: tl
      /\ List.length (snake g') = S (List.length (snake g))
      /\ gameOver g' = false /\ direction g' = direction g
      /\ calls = [])
  /\ (forall n,
        occupies (snake g) (random n) = false -> (n < fuel)%nat ->
        exists g', tick highScore fuel random g = Done (g', []))
  /\ (exists g',
        tick highScore 1 (always (food g)) g = Done (g', [])
        /\ draws_in_grid (always (food g))).
Proof.
  pose proof (collides_next_head g head tl Hsnake) as C.
  rewrite Hfree in C. symmetry in C.
  assert (Eq : forall f r,
             tick highScore f r g =
             match generateFood f r (snake g) with
             | None => OutOfFuel
             | Some newFood =>
                 Done (setFood newFood
                         (setScore (score g + 10)
                            (setSnake (newHead (direction g) head :: snake g)
                               g)), [])
             end).
  { intros f r.
    rewrite (tick_running highScore f r g head tl Hrun Hsnake).
    cbv zeta. rewrite C, Hfood. reflexivity. }
  split; [| split].
  - intros g' calls H. rewrite Eq in H.
    destruct (generateFood fuel random (snake g)); [| discriminate].
    injection H as <- <-. simpl. rewrite Hsnake.
    destruct Hrun as [Hover _]. repeat split; try reflexivity; assumption.
  - intros n Hn Hlt. rewrite Eq.
    destruct (generateFood_returns random (snake g) n fuel Hn Hlt)
      as [p [-> _]].
    eexists. reflexivity.
  - apply orb_false_iff in C. destruct C as [Hwall Hocc].
    apply same_cell_eq in Hfood. rewrite Hfood in Hwall, Hocc.
    rewrite Eq. simpl. unfold always at 1. rewrite Hocc.
    eexists. split; [reflexivity |].
    intros k. unfold always. now apply hits_wall_false.
Qed.

Lemma eating_adds_ten_and_one_segment_witness :
  exists g',
    tick 0 1 (always (mkPosition 2 2)) (setSnake [mkPosition 19 7] initial)
      = Done (g', [])
    /\ score g' = 10
    /\ snake g' = [mkPosition 20 7; mkPosition 19 7].
Proof.
  destruct (eating_adds_ten_and_one_segment 0 1
              (always (mkPosition 2 2))
              (setSnake [mkPosition 19 7] initial)
              (mkPosition 19 7) []
              (conj eq_refl eq_refl) eq_refl eq_refl eq_refl)
    as [Hgrow [Hreturns _]].
  destruct (Hreturns 0%nat eq_refl ltac:(lia)) as [g' Hg'].
  exists g'. split; [exact Hg' |].
  destruct (Hgrow g' [] Hg') as [Hs [Hsn _]].
  split; assumption.
Defined.

(** ** Invariants of the reachable states *)

Lemma NoDup_removelast (A : Type) (l : list A) :
  NoDup l -> NoDup (removelast l).
Proof.
  intros H. destruct l as [| a l]; [exact H |].
  assert (Hne : a :: l <> []) by discriminate.
  rewrite (app_removelast_last a Hne) in H.
  now apply NoDup_app_remove_r in H.
Qed.

Lemma Forall_removelast (A : Type) (P : A -> Prop) (l : list A) :
  Forall P l -> Forall P (removelast l).
Proof.
  intros H. destruct l as [| a l]; [exact H |].
  assert (Hne : a :: l <> []) by discriminate.
  rewrite (app_removelast_last a Hne) in H.
  apply Forall_app in H. tauto.
Qed.

Lemma length_removelast_cons (A : Type) (a : A) (l : list A) :
  List.length (removelast (a :: l)) = List.length l.
Proof.
  revert a. induction l as [| b l IH]; intros a; [reflexivity |].
  change (removelast (a :: b :: l)) with (a :: removelast (b :: l)).
  cbn [List.length]. f_equal. apply IH.
Qed.

Lemma invariant_initial : invariant initial.
Proof.
  split; simpl.
  - discriminate.
  - repeat constructor. intros [].
  - repeat constructor; simpl; unfold GRID_WIDTH, GRID_HEIGHT; lia.
  - repeat split; simpl; unfold GRID_WIDTH, GRID_HEIGHT; lia.
  - reflexivity.
Qed.

Lemma invariant_handleKeyDown (key : string) (g : Game) :
  invariant g -> invariant (fst (handleKeyDown key g)).
Proof.
  intros I. unfold handleKeyDown.
  repeat match goal with
         | |- context [if ?b then _ else _] => destruct b
         end; simpl; try exact I; try exact invariant_initial;
    destruct I; split; assumption.
Qed.

Lemma invariant_tick (highScore : Z) (fuel : nat) (random : RandomSource)
    (g g' : Game) (calls : list Z) :
  draws_in_grid random -> invariant g ->
  tick highScore fuel random g = Done (g', calls) -> invariant g'.
Proof.
  intros Hgrid I H.
  destruct (gameOver g || isPaused g) eqn:Hidle.
  - unfold tick in H. rewrite Hidle in H. injection H as <- _. exact I.
  - apply orb_false_iff in Hidle.
    destruct (snake g) as [| head tl] eqn:Hsnake;
      [destruct I as [Hne]; congruence |].
    rewrite (tick_running highScore fuel random g head tl Hidle Hsnake) in H.
    cbv zeta in H. rewrite Hsnake in H.
    destruct I as [Hne Hdis Hin Hfood Hscore]. rewrite Hsnake in *.
    set (p := newHead (direction g) head) in *.
    destruct (hits_wall p || occupies (head :: tl) p) eqn:Hcol.
    { injection H as <- _. split; simpl; rewrite ?Hsnake; assumption. }
    apply orb_false_iff in Hcol. destruct Hcol as [Hwall Hocc].
    apply hits_wall_false in Hwall. apply occupies_not_In in Hocc.
    destruct (same_cell p (food g)).
    + destruct (generateFood fuel random (head :: tl)) as [newFood |] eqn:G;
        [| discriminate].
      injection H as <- _. apply generateFood_Some in G.
      destruct G as [k [_ [Hk _]]].
      split; simpl.
      * discriminate.
      * constructor; assumption.
      * constructor; assumption.
      * rewrite <- Hk. apply Hgrid.
      * rewrite Hscore. unfold finalScore. simpl List.length. lia.
    + injection H as <- _. split.
      * change (removelast (p :: head :: tl) <> []).
        destruct tl; discriminate.
      * change (NoDup (removelast (p :: head :: tl))).
        apply NoDup_removelast. constructor; assumption.
      * change (Forall in_grid (removelast (p :: head :: tl))).
        apply Forall_removelast. constructor; assumption.
      * exact Hfood.
      * change (score g = finalScore (removelast (p :: head :: tl))).
        rewrite Hscore. unfold finalScore.
        now rewrite length_removelast_cons.
Qed.

Lemma reachable_invariant (g : Game) : reachable g -> invariant g.
Proof.
  induction 1 as [| e g g' _ IH Hok Hstep].
  - exact invariant_initial.
  - destruct e as [highScore fuel random | key]; simpl in Hstep, Hok.
    + destruct (tick highScore fuel random g) as [[g1 calls] | |] eqn:T;
        try discriminate.
      injection Hstep as <-. eapply invariant_tick; eassumption.
    + injection Hstep as <-. now apply invariant_handleKeyDown.
Qed.

Lemma run_reachable (events : list Event) : forall g g',
  reachable g -> Forall event_ok events -> run events g = Done g' ->
  reachable g'.
Proof.
  induction events as [| e events IH]; intros g g' Hg Hok H; simpl in H.
  - injection H as <-. exact Hg.
  - inversion Hok as [| ? ? He Hrest]; subst.
    destruct (step e g) as [g1 | |] eqn:S1; try discriminate.
    apply (IH g1); try assumption.
    now apply (reachable_step e g g1).
Qed.

Lemma always_in_grid (p : Position) : in_grid p -> draws_in_grid (always p).
Proof. intros H k. exact H. Qed.

Lemma about_to_eat_reachable : reachable about_to_eat.
Proof.
  apply (run_reachable (repeat (Tick 0 1 (always (mkPosition 0 0))) 4)
           initial).
  - exact reachable_initial.
  - apply Forall_forall. intros e He. apply repeat_spec in He. subst e.
    apply always_in_grid. unfold in_grid, GRID_WIDTH, GRID_HEIGHT.
    simpl. lia.
  - reflexivity.
Qed.

Lemma after_turn_reachable : reachable after_turn.
Proof.
  apply (run_reachable short_game initial).
  - exact reachable_initial.
  - unfold short_game.
    repeat (constructor;
            try (apply always_in_grid;
                 unfold in_grid, GRID_WIDTH, GRID_HEIGHT; simpl; lia)).
  - reflexivity.
Qed.

(** A tick that eats is the food search on the snake before the move. *)
Lemma tick_eating (highScore : Z) (fuel : nat) (random : RandomSource)
    (g : Game) :
  running g -> collides g = false -> next_head g = Some (food g) ->
  tick highScore fuel random g =
    match generateFood fuel random (snake g) with
    | None => OutOfFuel
    | Some newFood =>
        Done (setFood newFood
                (setScore (score g + 10) (setSnake (food g :: snake g) g)),
              [])
    end.
Proof.
  intros Hrun Hfree Heat. unfold next_head in Heat.
  destruct (snake g) as [| head tl] eqn:Hsnake; [discriminate |].
  injection Heat as Heat.
  rewrite (tick_running highScore fuel random g head tl Hrun Hsnake).
  cbv zeta. rewrite <- Hsnake.
  rewrite <- (collides_next_head g head tl Hsnake), Hfree, Heat.
  now rewrite (proj2 (same_cell_eq (food g) (food g)) eq_refl).
Qed.

(** C2, as the code has it: the food search of a tick that eats has no
    bound on its retries and enumerates nothing.  It redraws until a draw
    falls off the snake it tests (the snake before the move) and returns
    the first such draw.  A cell of the grid off that snake always exists
    (the eaten one, so the tested snake never covers the grid), the tick
    returns exactly when such a draw comes within the iterations it is
    given, and for every number [n] some draws in the grid make it take
    more than [n] iterations. *)
Theorem food_search_retries_unbounded (g : Game)
    (Hreach : reachable g) (Hrun : running g)
    (Hfree : collides g = false) (Heat : next_head g = Some (food g)) :
  (in_grid (food g) /\ occupies (snake g) (food g) = false)
  /\ (forall highScore fuel random,
        (exists g' calls, tick highScore fuel random g = Done (g', calls))
        <-> (exists k, (k < fuel)%nat
                       /\ occupies (snake g) (random k) = false))
  /\ (forall highScore fuel random g' calls,
        tick highScore fuel random g = Done (g', calls) ->
        exists k, (k < fuel)%nat /\ food g' = random k
                  /\ occupies (snake g) (random k) = false
                  /\ forall j, (j < k)%nat ->
                       occupies (snake g) (random j) = true)
  /\ (forall n : nat,
        exists random,
          draws_in_grid random
          /\ (forall highScore, tick highScore n random g = OutOfFuel)
          /\ (forall highScore,
                exists g', tick highScore (S n) random g = Done (g', []))).
Proof.
  destruct (reachable_invariant g Hreach) as [Hne _ Hin Hfood _].
  assert (Eq : forall h f r, tick h f r g = _)
    by (intros h f r; exact (tick_eating h f r g Hrun Hfree Heat)).
  assert (Hoff : occupies (snake g) (food g) = false).
  { unfold collides in Hfree. rewrite Heat in Hfree.
    now apply orb_false_iff in Hfree. }
  split; [now split | split; [| split]].
  - intros highScore fuel random. rewrite Eq. split.
    + intros [g' [calls H]].
      destruct (generateFood fuel random (snake g)) as [p |] eqn:G;
        [| discriminate].
      apply generateFood_Some in G.
      destruct G as [k [Hk [Hr [Hp _]]]].
      exists k. split; [exact Hk | now rewrite Hr].
    + intros [k [Hk Hoffk]].
      destruct (generateFood_returns random (snake g) k fuel Hoffk Hk)
        as [p [-> _]].
      eexists. eexists. reflexivity.
  - intros highScore fuel random g' calls H. rewrite Eq in H.
    destruct (generateFood fuel random (snake g)) as [p |] eqn:G;
      [| discriminate].
    injection H as <- _. apply generateFood_Some in G.
    destruct G as [k [Hk [Hr [Hp Hbefore]]]].
    exists k. simpl. rewrite Hr. repeat split; assumption.
  - intros n. unfold next_head in Heat.
    destruct (snake g) as [| head tl] eqn:Hsnake; [discriminate |].
    assert (Hhead : occupies (head :: tl) head = true)
      by (apply occupies_In; now left).
    exists (fun k => if Nat.ltb k n then head else food g).
    split; [| split].
    + intros k. destruct (Nat.ltb k n); [| exact Hfood].
      now inversion Hin.
    + intros highScore. rewrite Eq, generateFood_None; [reflexivity |].
      intros j Hj. apply Nat.ltb_lt in Hj. now rewrite Hj.
    + intros highScore. rewrite Eq.
      rewrite (generateFood_first_free (S n) _ (head :: tl) n).
      * rewrite Nat.ltb_irrefl. eexists. reflexivity.
      * now rewrite Nat.ltb_irrefl.
      * intros j Hj. apply Nat.ltb_lt in Hj. now rewrite Hj.
      * lia.
Qed.

Lemma food_search_retries_unbounded_witness :
  exists random,
    draws_in_grid random
    /\ tick 0 7 random about_to_eat = OutOfFuel
    /\ exists g', tick 0 8 random about_to_eat = Done (g', []).
Proof.
  destruct (proj2 (proj2 (proj2
              (food_search_retries_unbounded about_to_eat
                 about_to_eat_reachable (conj eq_refl eq_refl)
                 eq_refl eq_refl))) 7%nat)
    as [random [Hgrid [Hspin Hret]]].
  exists random. split; [exact Hgrid |].
  split; [apply Hspin | apply Hret].
Defined.

(** C2 as claimed fails on a run: four ticks after the start the next
    tick eats; no number of iterations is enough for every source of
    draws in the grid, and with the draws all on the segment (19, 7) the
    search never returns. *)
Lemma food_search_can_spin_forever :
  reachable about_to_eat
  /\ draws_in_grid (always (mkPosition 19 7))
  /\ ~ (exists fuel out,
          tick 0 fuel (always (mkPosition 19 7)) about_to_eat = Done out)
  /\ ~ (exists bound,
          forall random, draws_in_grid random ->
            exists out, tick 0 bound random about_to_eat = Done out).
Proof.
  assert (Hgrid : draws_in_grid (always (mkPosition 19 7))).
  { apply always_in_grid. unfold in_grid, GRID_WIDTH, GRID_HEIGHT.
    simpl. lia. }
  assert (Hspin : forall fuel,
             tick 0 fuel (always (mkPosition 19 7)) about_to_eat
             = OutOfFuel).
  { intros fuel.
    rewrite (tick_eating 0 fuel _ about_to_eat
               (conj eq_refl eq_refl) eq_refl eq_refl).
    rewrite generateFood_None; [reflexivity |].
    intros j _. reflexivity. }
  split; [exact about_to_eat_reachable | split; [exact Hgrid | split]].
  - intros [fuel [out H]]. rewrite Hspin in H. discriminate.
  - intros [bound H].
    destruct (H (always (mkPosition 19 7)) Hgrid) as [out Hout].
    rewrite Hspin in Hout. discriminate.
Qed.

(** C3: in every reachable state that is not over the segments of the
    snake are pairwise distinct (no two positions of the array hold the
    same cell), and whatever event comes next (a tick in any of its
    branches, a direction key, the pause key, a restart) leaves them so. *)
Theorem snake_segments_distinct (g : Game)
    (Hreach : reachable g) (Hlive : gameOver g = false) :
  NoDup (snake g)
  /\ (forall i j a b,
        nth_error (snake g) i = Some a -> nth_error (snake g) j = Some b ->
        i <> j -> same_cell a b = false)
  /\ (forall e g',
        event_ok e -> step e g = Done g' -> NoDup (snake g')).
Proof.
  pose proof (inv_distinct g (reachable_invariant g Hreach)) as Hnd.
  split; [exact Hnd | split].
  - intros i j a b Hi Hj Hij.
    destruct (same_cell a b) eqn:E; [| reflexivity].
    apply same_cell_eq in E. subst b. exfalso. apply Hij.
    apply (proj1 (NoDup_nth_error (snake g)) Hnd).
    + apply nth_error_Some. congruence.
    + congruence.
  - intros e g' Hok Hstep.
    apply inv_distinct, reachable_invariant.
    now apply (reachable_step e g g').
Qed.

Lemma snake_segments_distinct_witness :
  NoDup [mkPosition 21 6; mkPosition 21 7; mkPosition 20 7]
  /\ same_cell (mkPosition 21 6) (mkPosition 20 7) = false
  /\ NoDup [mkPosition 21 5; mkPosition 21 6; mkPosition 21 7;
            mkPosition 20 7].
Proof.
  destruct (snake_segments_distinct after_turn after_turn_reachable eq_refl)
    as [Hnd [Hpair Hnext]].
  split; [exact Hnd | split].
  - apply (Hpair 0%nat 2%nat); [reflexivity | reflexivity | discriminate].
  - apply (Hnext (Tick 0 1 (always (mkPosition 3 3)))
                 {| snake := [mkPosition 21 5; mkPosition 21 6;
                              mkPosition 21 7; mkPosition 20 7];
                    food := mkPosition 3 3;
                    direction := UP; gameOver := false; score := 30;
                    isPaused := false |}).
    + intros k. unfold always, in_grid, GRID_WIDTH, GRID_HEIGHT. simpl. lia.
    + reflexivity.
Defined.

(** What the food search of a tick does guarantee: the new food is off the
    snake as it was before the move, so it can meet the new snake in one
    cell only, the head just put in front (the cell of the eaten food). *)
Lemma new_food_avoids_previous_snake (highScore : Z) (fuel : nat)
    (random : RandomSource) (g g' : Game) (calls : list Z)
    (head : Position) (tl : list Position) :
  running g -> snake g = head :: tl -> collides g = false ->
  same_cell (newHead (direction g) head) (food g) = true ->
  tick highScore fuel random g = Done (g', calls) ->
  occupies (snake g) (food g') = false
  /\ (occupies (snake g') (food g') = true <-> food g' = food g).
Proof.
  intros Hrun Hsnake Hfree Hfood H.
  rewrite (tick_running highScore fuel random g head tl Hrun Hsnake) in H.
  cbv zeta in H.
  rewrite <- (collides_next_head g head tl Hsnake), Hfree, Hfood in H.
  destruct (generateFood fuel random (snake g)) as [newFood |] eqn:G;
    [| discriminate].
  injection H as <- _. apply generateFood_Some in G.
  destruct G as [_ [_ [_ [Hoff _]]]].
  apply same_cell_eq in Hfood.
  change (occupies (snake g) newFood = false
          /\ (occupies (newHead (direction g) head :: snake g) newFood = true
              <-> newFood = food g)).
  split; [exact Hoff |].
  rewrite occupies_In. apply occupies_not_In in Hoff. simpl.
  rewrite Hfood. split.
  - intros [E | Hin]; [now symmetry | contradiction].
  - intros ->. now left.
Qed.

(** C1, on the code: the food search of a tick tests the snake of the
    render that installed the interval, that is the snake before the move.
    From the initial state, five ticks to the right reach the food at
    (20, 7); when the draw of the search is (20, 7) again it is accepted,
    since the old snake [(19, 7)] does not hold it, and the food sits under
    the head of the new snake [(20, 7); (19, 7)]. *)
Theorem food_can_land_on_new_head :
  let draws := always (mkPosition 20 7) in
  let g := {| snake := [mkPosition 20 7; mkPosition 19 7];
              food := mkPosition 20 7;
              direction := RIGHT; gameOver := false; score := 10;
              isPaused := false |} in
  draws_in_grid draws
  /\ run (repeat (Tick 0 1 draws) 5) initial = Done g
  /\ reachable g
  /\ occupies (snake g) (food g) = true
  /\ hd_error (snake g) = Some (food g).
Proof.
  intros draws g.
  assert (Hgrid : draws_in_grid draws).
  { intros k. unfold draws, always, in_grid, GRID_WIDTH, GRID_HEIGHT.
    simpl. lia. }
  assert (Hrun : run (repeat (Tick 0 1 draws) 5) initial = Done g)
    by reflexivity.
  repeat split; try reflexivity; try apply Hgrid.
  apply (run_reachable (repeat (Tick 0 1 draws) 5) initial g).
  - exact reachable_initial.
  - apply Forall_forall. intros e He. apply repeat_spec in He. subst e.
    exact Hgrid.
  - exact Hrun.
Qed.

(** ** The rendered grid *)

Lemma length_update (A : Type) (l : list A) : forall n v,
  List.length (update l n v) = List.length l.
Proof.
  induction l as [| a l IH]; intros [| n] v; simpl; auto.
Qed.

Lemma nth_error_update (A : Type) (l : list A) : forall n m v,
  nth_error (update l n v) m =
    if Nat.eqb n m && Nat.ltb n (List.length l) then Some v
    else nth_error l m.
Proof.
  induction l as [| a l IH]; intros n m v.
  - destruct n, m; simpl; try reflexivity.
    now rewrite andb_false_r.
  - destruct n as [| n], m as [| m]; simpl; try reflexivity.
    rewrite IH. reflexivity.
Qed.

Lemma Forall_update (A : Type) (P : A -> Prop) (l : list A) : forall n v,
  Forall P l -> P v -> Forall P (update l n v).
Proof.
  induction l as [| a l IH]; intros [| n] v Hl Hv; simpl;
    inversion Hl; subst; constructor; auto.
Qed.

Lemma nth_error_map_seq (A : Type) (f : nat -> A) (n k : nat) :
  (k < n)%nat -> nth_error (map f (seq 0 n)) k = Some (f k).
Proof.
  intros Hk. rewrite nth_error_map.
  rewrite (nth_error_nth' (seq 0 n) O) by (rewrite length_seq; lia).
  rewrite seq_nth by lia. reflexivity.
Qed.

Lemma full_grid_empty : full_grid empty_grid.
Proof.
  split.
  - unfold empty_grid. now rewrite length_map, length_seq.
  - apply Forall_forall. intros row Hrow. unfold empty_grid in Hrow.
    apply in_map_iff in Hrow. destruct Hrow as [_ [<- _]]. split.
    + now rewrite length_map, length_seq.
    + apply Forall_forall. intros c Hc. apply in_map_iff in Hc.
      destruct Hc as [_ [<- _]]. discriminate.
Qed.

Lemma cell_empty_grid (p : Position) :
  in_grid p -> cell empty_grid p = Some " "%string.
Proof.
  intros [Hx Hy]. unfold cell, empty_grid.
  rewrite nth_error_map_seq by lia.
  rewrite nth_error_map_seq by lia. reflexivity.
Qed.

Lemma in_grid_bounds (p : Position) :
  in_grid p ->
  (Z.to_nat (x p) < Z.to_nat GRID_WIDTH)%nat
  /\ (Z.to_nat (y p) < Z.to_nat GRID_HEIGHT)%nat.
Proof. intros [Hx Hy]. split; lia. Qed.

Lemma in_grid_guard (p : Position) :
  (y p >=? 0) && (y p <? GRID_HEIGHT) && (x p >=? 0) && (x p <? GRID_WIDTH)
  = true <-> in_grid p.
Proof.
  unfold in_grid. rewrite !andb_true_iff, !Z.geb_leb, !Z.leb_le, !Z.ltb_lt.
  lia.
Qed.

(** Writing a cell of the grid into a full grid: the grid stays full and
    only that cell changes. *)
Lemma assign_cell_full (grid : Grid) (q : Position) (v : string) :
  full_grid grid -> in_grid q ->
  exists grid',
    assign_cell grid (y q) (x q) v = Done grid'
    /\ full_grid grid'
    /\ forall p, in_grid p ->
         cell grid' p = if same_cell q p then Some v else cell grid p.
Proof.
  intros [Hrows Hfull] Hq.
  destruct (in_grid_bounds q Hq) as [Hqx Hqy].
  destruct Hq as [Hx Hy].
  unfold assign_cell. rewrite Hrows.
  replace ((y q <? 0) || (y q >=? Z.of_nat (Z.to_nat GRID_HEIGHT)))
    with false
    by (symmetry; apply orb_false_iff; split;
        [apply Z.ltb_ge | rewrite Z.geb_leb; apply Z.leb_gt]; lia).
  destruct (nth_error grid (Z.to_nat (y q))) as [row |] eqn:Hrow.
  2:{ apply nth_error_None in Hrow. lia. }
  assert (Hin : In row grid) by (eapply nth_error_In; eassumption).
  rewrite Forall_forall in Hfull. destruct (Hfull row Hin) as [Hlen Hsome].
  assert (Ea : assign row (x q) v = update row (Z.to_nat (x q)) (Some v)).
  { unfold assign. rewrite Hlen.
    replace (x q <? 0) with false by (symmetry; apply Z.ltb_ge; lia).
    replace (x q <? Z.of_nat (Z.to_nat GRID_WIDTH)) with true
      by (symmetry; apply Z.ltb_lt; lia).
    reflexivity. }
  rewrite Ea. eexists. split; [reflexivity | split].
  - split.
    + now rewrite length_update.
    + apply Forall_update.
      * apply Forall_forall. exact Hfull.
      * split; [now rewrite length_update |].
        apply Forall_update; [assumption | discriminate].
  - intros p Hp. destruct (in_grid_bounds p Hp) as [Hpx Hpy].
    destruct Hp as [Hpx' Hpy'].
    unfold cell. rewrite nth_error_update, Hrows.
    replace (Z.to_nat (y q) <? Z.to_nat GRID_HEIGHT)%nat with true
      by (symmetry; apply Nat.ltb_lt; lia).
    rewrite andb_true_r.
    destruct (Nat.eqb (Z.to_nat (y q)) (Z.to_nat (y p))) eqn:Ey.
    + apply Nat.eqb_eq in Ey. rewrite nth_error_update, Hlen.
      replace (Z.to_nat (x q) <? Z.to_nat GRID_WIDTH)%nat with true
        by (symmetry; apply Nat.ltb_lt; lia).
      rewrite andb_true_r. rewrite <- Ey, Hrow.
      unfold same_cell.
      replace (y q =? y p) with true by (symmetry; apply Z.eqb_eq; lia).
      rewrite andb_true_r.
      destruct (Nat.eqb (Z.to_nat (x q)) (Z.to_nat (x p))) eqn:Ex.
      * apply Nat.eqb_eq in Ex.
        replace (x q =? x p) with true by (symmetry; apply Z.eqb_eq; lia).
        reflexivity.
      * apply Nat.eqb_neq in Ex.
        replace (x q =? x p) with false by (symmetry; apply Z.eqb_neq; lia).
        reflexivity.
    + apply Nat.eqb_neq in Ey. unfold same_cell.
      replace (y q =? y p) with false by (symmetry; apply Z.eqb_neq; lia).
      now rewrite andb_false_r.
Qed.

(** The body segments, written after the head: each one in the grid
    shows as a body cell, whatever the cell held. *)
Lemma place_snake_body (segments : list Position) : forall index grid,
  (0 < index)%nat -> full_grid grid ->
  exists grid',
    place_snake index segments grid = Done grid'
    /\ full_grid grid'
    /\ forall p, in_grid p ->
         cell grid' p =
           if occupies segments p then Some "▓"%string else cell grid p.
Proof.
  induction segments as [| segment rest IH]; intros index grid Hidx Hfull.
  - exists grid. repeat split; try assumption; apply Hfull.
  - simpl place_snake.
    destruct ((y segment >=? 0) && (y segment <? GRID_HEIGHT)
              && (x segment >=? 0) && (x segment <? GRID_WIDTH)) eqn:Hguard.
    + apply in_grid_guard in Hguard.
      destruct (assign_cell_full grid segment
                  (if Nat.eqb index 0 then "█" else "▓")%string
                  Hfull Hguard) as [g1 [E1 [F1 C1]]].
      rewrite E1.
      destruct (IH (S index) g1 ltac:(lia) F1) as [g2 [E2 [F2 C2]]].
      exists g2. split; [exact E2 | split; [exact F2 |]].
      intros p Hp. rewrite (C2 p Hp), (C1 p Hp).
      replace (Nat.eqb index 0) with false
        by (symmetry; apply Nat.eqb_neq; lia).
      unfold occupies. simpl existsb.
      destruct (same_cell segment p); simpl;
        destruct (existsb (fun s0 => same_cell s0 p) rest); reflexivity.
    + destruct (IH (S index) grid ltac:(lia) Hfull) as [g2 [E2 [F2 C2]]].
      exists g2. split; [exact E2 | split; [exact F2 |]].
      intros p Hp. rewrite (C2 p Hp).
      assert (Hne : same_cell segment p = false).
      { destruct (same_cell segment p) eqn:E; [| reflexivity].
        apply same_cell_eq in E. subst p.
        apply in_grid_guard in Hp. congruence. }
      unfold occupies. simpl existsb. now rewrite Hne.
Qed.

(** With the food on a cell of the grid, [renderGrid] returns 15 rows of
    30 strings, and each cell shows, in this order of precedence: a body
    segment lying there, else the head, else the food, else a blank.  The
    snake is drawn over the food, and a body segment over the head. *)
Theorem renderGrid_shows (g : Game) (Hfood : in_grid (food g)) :
  exists grid,
    renderGrid g = Done grid
    /\ full_grid grid
    /\ forall p, in_grid p -> cell grid p = Some (shown g p).
Proof.
  unfold renderGrid.
  destruct (assign_cell_full empty_grid (food g) "●"%string
              full_grid_empty Hfood) as [g0 [E0 [F0 C0]]].
  rewrite E0.
  assert (Hstart : forall p, in_grid p ->
            cell g0 p =
              Some (if same_cell (food g) p then "●" else " ")%string).
  { intros p Hp. rewrite (C0 p Hp), (cell_empty_grid p Hp).
    now destruct (same_cell (food g) p). }
  unfold shown. destruct (snake g) as [| head body].
  - exists g0. split; [reflexivity | split; [exact F0 |]].
    intros p Hp. simpl. apply Hstart; assumption.
  - simpl place_snake. simpl List.tl. simpl firstn.
    destruct ((y head >=? 0) && (y head <? GRID_HEIGHT)
              && (x head >=? 0) && (x head <? GRID_WIDTH)) eqn:Hguard.
    + apply in_grid_guard in Hguard.
      destruct (assign_cell_full g0 head "█"%string F0 Hguard)
        as [g1 [E1 [F1 C1]]].
      rewrite E1.
      destruct (place_snake_body body 1 g1 ltac:(lia) F1) as [g2 [E2 [F2 C2]]].
      exists g2. split; [exact E2 | split; [exact F2 |]].
      intros p Hp. rewrite (C2 p Hp), (C1 p Hp), (Hstart p Hp).
      change (occupies [head] p) with (same_cell head p || false).
      rewrite orb_false_r.
      destruct (occupies body p), (same_cell head p),
        (same_cell (food g) p); reflexivity.
    + destruct (place_snake_body body 1 g0 ltac:(lia) F0) as [g2 [E2 [F2 C2]]].
      exists g2. split; [exact E2 | split; [exact F2 |]].
      intros p Hp. rewrite (C2 p Hp), (Hstart p Hp).
      assert (Hne : same_cell head p = false).
      { destruct (same_cell head p) eqn:E; [| reflexivity].
        apply same_cell_eq in E. subst p.
        apply in_grid_guard in Hp. congruence. }
      change (occupies [head] p) with (same_cell head p || false).
      rewrite Hne. simpl.
      destruct (occupies body p), (same_cell (food g) p); reflexivity.
Qed.

Lemma renderGrid_shows_witness :
  exists grid,
    renderGrid initial = Done grid
    /\ cell grid (mkPosition 15 7) = Some "█"%string
    /\ cell grid (mkPosition 20 7) = Some "●"%string
    /\ cell grid (mkPosition 0 0) = Some " "%string.
Proof.
  destruct (renderGrid_shows initial) as [grid [E [_ Hcell]]].
  - unfold in_grid, GRID_WIDTH, GRID_HEIGHT. simpl. lia.
  - exists grid. split; [exact E |].
    repeat split; rewrite Hcell;
      try reflexivity; unfold in_grid, GRID_WIDTH, GRID_HEIGHT; simpl; lia.
Defined.

Lemma place_snake_rows (segments : list Position) : forall index grid,
  List.length grid = Z.to_nat GRID_HEIGHT ->
  exists grid',
    place_snake index segments grid = Done grid'
    /\ List.length grid' = Z.to_nat GRID_HEIGHT.
Proof.
  induction segments as [| segment rest IH]; intros index grid Hrows.
  - now exists grid.
  - simpl place_snake.
    destruct ((y segment >=? 0) && (y segment <? GRID_HEIGHT)
              && (x segment >=? 0) && (x segment <? GRID_WIDTH)) eqn:Hguard;
      [| now apply IH].
    apply in_grid_guard in Hguard. destruct Hguard as [_ Hy].
    unfold assign_cell. rewrite Hrows.
    replace ((y segment <? 0)
             || (y segment >=? Z.of_nat (Z.to_nat GRID_HEIGHT)))
      with false
      by (symmetry; apply orb_false_iff; split;
          [apply Z.ltb_ge | rewrite Z.geb_leb; apply Z.leb_gt]; lia).
    destruct (nth_error grid (Z.to_nat (y segment))) as [row |] eqn:Hrow.
    + apply IH. now rewrite length_update.
    + apply nth_error_None in Hrow. lia.
Qed.

(** [renderGrid] throws exactly when the row of the food does not exist,
    that is when [food.y] is outside 0..14; a column outside 0..29 alone
    does not make it throw, and drawing the snake never does. *)
Theorem renderGrid_throws_iff (g : Game) :
  (renderGrid g = TypeError <-> ~ (0 <= y (food g) < GRID_HEIGHT))
  /\ renderGrid g <> OutOfFuel.
Proof.
  unfold renderGrid, assign_cell.
  assert (Hrows : List.length empty_grid = Z.to_nat GRID_HEIGHT)
    by apply full_grid_empty.
  rewrite Hrows.
  destruct ((y (food g) <? 0)
            || (y (food g) >=? Z.of_nat (Z.to_nat GRID_HEIGHT))) eqn:Hout.
  - split; [| discriminate]. split; [| reflexivity].
    intros _. apply orb_true_iff in Hout.
    rewrite Z.ltb_lt, Z.geb_leb, Z.leb_le in Hout.
    unfold GRID_HEIGHT in *. lia.
  - apply orb_false_iff in Hout.
    rewrite Z.ltb_ge, Z.geb_leb, Z.leb_gt in Hout.
    destruct (nth_error empty_grid (Z.to_nat (y (food g)))) as [row |] eqn:Hrow.
    2:{ apply nth_error_None in Hrow. unfold GRID_HEIGHT in *. lia. }
    destruct (place_snake_rows (snake g) 0
                (update empty_grid (Z.to_nat (y (food g)))
                   (assign row (x (food g)) "●"%string)))
      as [grid' [E _]].
    { now rewrite length_update. }
    rewrite E. split; [| discriminate].
    split; [discriminate |]. intros H. exfalso. apply H.
    unfold GRID_HEIGHT in *. lia.
Qed.

Lemma glyphs_differ :
  "▓"%string <> "█"%string /\ "▓"%string <> "●"%string
  /\ "▓"%string <> " "%string /\ "█"%string <> "●"%string
  /\ "█"%string <> " "%string /\ "●"%string <> " "%string.
Proof. repeat split; discriminate. Qed.

(** In a reachable state [renderGrid] returns a full grid on which exactly
    the cell of the head shows the head, exactly the cells of the other
    segments show a body segment, and the food shows exactly when no
    segment lies on it. *)
Theorem renderGrid_reachable (g : Game) (Hreach : reachable g) :
  exists grid head body,
    snake g = head :: body
    /\ renderGrid g = Done grid
    /\ full_grid grid
    /\ forall p, in_grid p ->
         (cell grid p = Some "█"%string <-> p = head)
         /\ (cell grid p = Some "▓"%string <-> In p body)
         /\ (cell grid p = Some "●"%string
             <-> p = food g /\ ~ In p (snake g)).
Proof.
  destruct (reachable_invariant g Hreach) as [Hne Hdis _ Hfood _].
  destruct (renderGrid_shows g Hfood) as [grid [E [F Hcell]]].
  destruct (snake g) as [| head body] eqn:Hsnake; [congruence |].
  exists grid, head, body.
  split; [reflexivity | split; [exact E | split; [exact F |]]].
  intros p Hp. rewrite (Hcell p Hp). unfold shown. rewrite Hsnake.
  simpl List.tl. simpl firstn.
  change (occupies [head] p) with (same_cell head p || false).
  rewrite orb_false_r.
  inversion Hdis as [| ? ? Hhead _]; subst.
  destruct glyphs_differ as [G1 [G2 [G3 [G4 [G5 G6]]]]].
  split; [split | split; split].
  - destruct (occupies body p) eqn:Hb; [intros Q; congruence |].
    destruct (same_cell head p) eqn:Hh.
    + intros _. symmetry. now apply same_cell_eq.
    + destruct (same_cell (food g) p); intros Q; congruence.
  - intros ->. apply occupies_not_In in Hhead. rewrite Hhead.
    now rewrite (proj2 (same_cell_eq head head) eq_refl).
  - destruct (occupies body p) eqn:Hb; [intros _; now apply occupies_In |].
    destruct (same_cell head p), (same_cell (food g) p);
      intros Q; congruence.
  - intros Hin. apply occupies_In in Hin. now rewrite Hin.
  - destruct (occupies body p) eqn:Hb; [intros Q; congruence |].
    destruct (same_cell head p) eqn:Hh; [intros Q; congruence |].
    destruct (same_cell (food g) p) eqn:Hf; [| intros Q; congruence].
    intros _. split; [symmetry; now apply same_cell_eq |].
    intros [-> | Hin].
    + rewrite (proj2 (same_cell_eq p p) eq_refl) in Hh. discriminate.
    + apply occupies_In in Hin. congruence.
  - intros [-> Hoff]. apply occupies_not_In in Hoff.
    unfold occupies in Hoff |- *. simpl existsb in Hoff.
    apply orb_false_iff in Hoff. destruct Hoff as [Hh Hb].
    rewrite Hb, Hh.
    now rewrite (proj2 (same_cell_eq (food g) (food g)) eq_refl).
Qed.

Lemma renderGrid_reachable_witness :
  exists grid,
    renderGrid initial = Done grid
    /\ (cell grid (mkPosition 20 7) = Some "●"%string).
Proof.
  destruct (renderGrid_reachable initial reachable_initial)
    as [grid [head [body [_ [E [_ Hcell]]]]]].
  exists grid. split; [exact E |].
  apply (proj2 (Hcell (mkPosition 20 7)
                  ltac:(unfold in_grid, GRID_WIDTH, GRID_HEIGHT;
                        simpl; lia))).
  split; [reflexivity |]. simpl. intros [Q | []]. discriminate.
Defined.

(** ** Score, speed and size along a game *)

(** In a reachable state the score is ten times the number of segments
    after the head, so the interval is [max 60 (150 - 5 * (L - 1))] for a
    snake of [L] segments, and the final score a collision hands to
    [onHighScore] is the score on display. *)
Theorem score_follows_length (g : Game) (Hreach : reachable g) :
  score g = 10 * (Z.of_nat (List.length (snake g)) - 1)
  /\ currentSpeed (score g)
     = Z.max 60 (150 - 5 * (Z.of_nat (List.length (snake g)) - 1))
  /\ (running g -> collides g = true ->
      forall highScore fuel random,
        tick highScore fuel random g =
          Done (setGameOver true g,
                if score g >? highScore then [score g] else [])).
Proof.
  destruct (reachable_invariant g Hreach) as [_ _ _ _ Hscore].
  assert (E : score g = 10 * (Z.of_nat (List.length (snake g)) - 1))
    by (rewrite Hscore; unfold finalScore; lia).
  split; [exact E | split].
  - rewrite E. unfold currentSpeed, MIN_SPEED, INITIAL_SPEED,
      SPEED_DECREASE_PER_FOOD.
    replace (10 * (Z.of_nat (List.length (snake g)) - 1))
      with ((Z.of_nat (List.length (snake g)) - 1) * 10) by lia.
    rewrite Z.div_mul by lia. f_equal. lia.
  - intros Hrun Hcol highScore fuel random.
    destruct (collides_nonempty g Hcol) as [head [tl Hsnake]].
    rewrite (tick_running highScore fuel random g head tl Hrun Hsnake).
    cbv zeta. rewrite <- (collides_next_head g head tl Hsnake), Hcol.
    now rewrite <- Hscore.
Qed.

Lemma score_follows_length_witness :
  score after_turn = 10 * (3 - 1)
  /\ currentSpeed (score after_turn) = 140
  /\ tick 10 1 (always (mkPosition 0 0))
          (setDirection DOWN after_turn)
     = Done (setGameOver true (setDirection DOWN after_turn), [20]).
Proof.
  destruct (score_follows_length after_turn after_turn_reachable)
    as [E [S _]].
  split; [exact E | split; [rewrite S; reflexivity |]].
  assert (Hdown : reachable (setDirection DOWN after_turn)).
  { apply (reachable_step (KeyDown "ArrowDown")
             (setDirection LEFT after_turn)).
    - apply (reachable_step (KeyDown "ArrowLeft") after_turn);
        [exact after_turn_reachable | exact I | reflexivity].
    - exact I.
    - reflexivity. }
  exact (proj2 (proj2 (score_follows_length
                         (setDirection DOWN after_turn) Hdown))
               (conj eq_refl eq_refl) eq_refl 10 1%nat
               (always (mkPosition 0 0))).
Defined.

(** In a reachable state the food and every segment are cells of the
    grid, the snake has between 1 and 450 segments and the score lies
    between 0 and 4490. *)
Theorem reachable_bounds (g : Game) (Hreach : reachable g) :
  in_grid (food g)
  /\ Forall in_grid (snake g)
  /\ (1 <= List.length (snake g) <= 450)%nat
  /\ 0 <= score g <= 4490.
Proof.
  destruct (reachable_invariant g Hreach)
    as [Hne Hdis Hin Hfood Hscore].
  assert (Hlen : (1 <= List.length (snake g) <= 450)%nat).
  { split.
    - destruct (snake g); [congruence | simpl; lia].
    - change 450%nat with (List.length all_cells).
      apply NoDup_incl_length; [exact Hdis |].
      intros p Hp. apply in_grid_all_cells.
      rewrite Forall_forall in Hin. now apply Hin. }
  split; [exact Hfood | split; [exact Hin | split; [exact Hlen |]]].
  rewrite Hscore. unfold finalScore. lia.
Qed.

Lemma reachable_bounds_witness :
  in_grid (mkPosition 21 5)
  /\ Forall in_grid [mkPosition 21 6; mkPosition 21 7; mkPosition 20 7]
  /\ 0 <= score after_turn <= 4490.
Proof.
  destruct (reachable_bounds after_turn after_turn_reachable)
    as [F [Sg [_ Sc]]].
  split; [exact F | split; [exact Sg | exact Sc]].
Defined.

(** A tick of a reachable state never throws: the snake it reads the head
    of is not empty.  It can fail to return only inside the food search,
    and a source whose draws are the eaten cell makes it return with any
    fuel above 0. *)
Theorem tick_never_throws (g : Game) (Hreach : reachable g)
    (highScore : Z) (fuel : nat) (random : RandomSource) :
  tick highScore fuel random g <> TypeError
  /\ (tick highScore fuel random g = OutOfFuel ->
      generateFood fuel random (snake g) = None
      /\ next_head g = Some (food g))
  /\ (exists g' calls,
        tick highScore (S fuel) (always (food g)) g = Done (g', calls)
        /\ draws_in_grid (always (food g))).
Proof.
  destruct (reachable_invariant g Hreach) as [Hne _ _ Hfood _].
  assert (Hgrid : draws_in_grid (always (food g))) by (intros k; exact Hfood).
  destruct (gameOver g || isPaused g) eqn:Hidle.
  { apply orb_true_iff in Hidle.
    split; [| split].
    - rewrite tick_idle by assumption. discriminate.
    - rewrite tick_idle by assumption. discriminate.
    - exists g, []. rewrite tick_idle by assumption. now split. }
  apply orb_false_iff in Hidle.
  destruct (snake g) as [| head tl] eqn:Hsnake; [congruence |].
  assert (Eq : forall f r,
             tick highScore f r g = _)
    by (intros f r;
        exact (tick_running highScore f r g head tl Hidle Hsnake)).
  cbv zeta in Eq. unfold next_head. rewrite !Eq, Hsnake.
  destruct (hits_wall (newHead (direction g) head)
            || occupies (head :: tl) (newHead (direction g) head)) eqn:Hcol.
  { split; [discriminate | split; [discriminate |]].
    eexists; eexists; split; [reflexivity | exact Hgrid]. }
  destruct (same_cell (newHead (direction g) head) (food g)) eqn:Heat.
  - apply same_cell_eq in Heat. rewrite Heat in *.
    apply orb_false_iff in Hcol. destruct Hcol as [_ Hocc].
    split; [| split].
    + destruct (generateFood fuel random (head :: tl)); discriminate.
    + destruct (generateFood fuel random (head :: tl)); [discriminate |].
      intros _. now split.
    + change (generateFood (S fuel) (always (food g)) (head :: tl))
        with (if occupies (head :: tl) (food g)
              then generateFood fuel (fun k => always (food g) (S k))
                     (head :: tl)
              else Some (food g)).
      rewrite Hocc.
      eexists; eexists; split; [reflexivity | exact Hgrid].
  - split; [discriminate | split; [discriminate |]].
    eexists; eexists; split; [reflexivity | exact Hgrid].
Qed.

Lemma tick_never_throws_witness :
  tick 0 0 (always (mkPosition 0 0)) after_turn <> TypeError
  /\ (tick 0 0 (always (mkPosition 0 0)) after_turn = OutOfFuel ->
      next_head after_turn = Some (food after_turn))
  /\ exists g' calls,
       tick 0 1 (always (food after_turn)) after_turn = Done (g', calls).
Proof.
  destruct (tick_never_throws after_turn after_turn_reachable 0 0%nat
              (always (mkPosition 0 0)))
    as [Hno [Hspin [g' [calls [Hret _]]]]].
  split; [exact Hno | split].
  - intros H. apply (Hspin H).
  - exists g', calls. exact Hret.
Defined.

(** A tick of a running game that hits nothing and does not reach the
    food always returns, and moves the snake by one cell: the new head in
    front, the last segment gone, the length, food, score, direction and
    flags as before, nothing called. *)
Theorem normal_move_shifts (highScore : Z) (fuel : nat)
    (random : RandomSource) (g : Game) (head : Position)
    (tl : list Position)
    (Hrun : running g) (Hsnake : snake g = head :: tl)
    (Hfree : collides g = false)
    (Hfood : same_cell (newHead (direction g) head) (food g) = false) :
  exists moved,
    tick highScore fuel random g = Done (setSnake moved g, [])
    /\ moved ++ [last (snake g) head] = newHead (direction g) head :: snake g
    /\ List.length moved = List.length (snake g).
Proof.
  exists (removelast (newHead (direction g) head :: snake g)).
  split; [| split].
  - rewrite (tick_running highScore fuel random g head tl Hrun Hsnake).
    cbv zeta. rewrite <- (collides_next_head g head tl Hsnake), Hfree, Hfood.
    reflexivity.
  - rewrite Hsnake.
    rewrite (app_removelast_last head
               (l := newHead (direction g) head :: head :: tl))
      at 2 by discriminate.
    reflexivity.
  - apply length_removelast_cons.
Qed.

Lemma normal_move_shifts_witness :
  exists moved,
    tick 0 0 (always (mkPosition 0 0)) initial
      = Done (setSnake moved initial, [])
    /\ moved ++ [mkPosition 15 7] = [mkPosition 16 7; mkPosition 15 7].
Proof.
  destruct (normal_move_shifts 0 0 (always (mkPosition 0 0)) initial
              (mkPosition 15 7) [] (conj eq_refl eq_refl) eq_refl
              eq_refl eq_refl) as [moved [E [M _]]].
  exists moved. split; [exact E | exact M].
Defined.

(** ** Keys and the end of a game *)

Lemma key_in_In (key a b c : string) :
  key_in key a b c = true <-> In key [a; b; c].
Proof.
  unfold key_in. rewrite !orb_true_iff, !String.eqb_eq. simpl.
  intuition congruence.
Qed.

(** Once the game is over, the keys [r] and [R] put the initial state
    back (one segment at (15, 7), food at (20, 7), heading right, score 0,
    neither paused nor over); every tick and every other key returns and
    leaves the state as it is. *)
Theorem game_over_until_restart (g : Game) (Hover : gameOver g = true) :
  step (KeyDown "r") g = Done initial
  /\ step (KeyDown "R") g = Done initial
  /\ initial = {| snake := [mkPosition 15 7]; food := mkPosition 20 7;
                  direction := RIGHT; gameOver := false; score := 0;
                  isPaused := false |}
  /\ (forall key, key <> "r"%string -> key <> "R"%string ->
        step (KeyDown key) g = Done g)
  /\ (forall highScore fuel random,
        step (Tick highScore fuel random) g = Done g).
Proof.
  split; [| split; [| split; [| split]]].
  - simpl. unfold handleKeyDown. simpl. now rewrite Hover.
  - simpl. unfold handleKeyDown. simpl. now rewrite Hover.
  - reflexivity.
  - intros key Hr HR. simpl. unfold handleKeyDown.
    destruct (key_in key "Escape" "q" "Q"); [reflexivity |].
    rewrite Hover.
    apply String.eqb_neq in Hr, HR. now rewrite Hr, HR.
  - intros highScore fuel random. simpl.
    now rewrite tick_idle by (left; exact Hover).
Qed.

Lemma game_over_until_restart_witness :
  step (KeyDown "r") (setGameOver true after_turn) = Done initial
  /\ step (KeyDown "R") (setGameOver true after_turn) = Done initial
  /\ step (KeyDown "ArrowLeft") (setGameOver true after_turn)
     = Done (setGameOver true after_turn)
  /\ step (Tick 0 1 (always (mkPosition 0 0))) (setGameOver true after_turn)
     = Done (setGameOver true after_turn).
Proof.
  destruct (game_over_until_restart (setGameOver true after_turn) eq_refl)
    as [Hr [HR [_ [Hkey Htick]]]].
  split; [exact Hr | split; [exact HR | split]].
  - apply Hkey; discriminate.
  - apply Htick.
Defined.

(** [onExit] is called exactly for [Escape], [q] and [Q], in every state,
    and then nothing changes; while the game is not over no key changes
    the snake, the food or the score or ends the game. *)
Theorem keys_leave_the_board (key : string) (g : Game) :
  (snd (handleKeyDown key g) = true <-> In key ["Escape"; "q"; "Q"]%string)
  /\ (snd (handleKeyDown key g) = true -> fst (handleKeyDown key g) = g)
  /\ (gameOver g = false ->
      snake (fst (handleKeyDown key g)) = snake g
      /\ food (fst (handleKeyDown key g)) = food g
      /\ score (fst (handleKeyDown key g)) = score g
      /\ gameOver (fst (handleKeyDown key g)) = false).
Proof.
  rewrite <- key_in_In. unfold handleKeyDown.
  destruct (key_in key "Escape" "q" "Q").
  - simpl. repeat split; auto.
  - split; [| split].
    + repeat match goal with
             | |- context [if ?b then _ else _] => destruct b
             end; simpl; split; discriminate.
    + repeat match goal with
             | |- context [if ?b then _ else _] => destruct b
             end; simpl; discriminate.
    + intros Hlive. rewrite Hlive.
      repeat match goal with
             | |- context [if ?b then _ else _] => destruct b
             end; simpl; repeat split; auto.
Qed.

(** ** Steps of the speed *)

(** Below a score of 180 ten more points shorten the interval by exactly
    5 ms; the interval is at its floor of 60 ms exactly from 180 on. *)
Theorem currentSpeed_steps (s : Z) (Hs : 0 <= s) :
  (s < 180 -> currentSpeed (s + 10) = currentSpeed s - 5)
  /\ (currentSpeed s = 60 <-> 180 <= s).
Proof.
  unfold currentSpeed, MIN_SPEED, INITIAL_SPEED, SPEED_DECREASE_PER_FOOD.
  assert (Hq : (s + 10) / 10 = s / 10 + 1).
  { replace (s + 10) with (s + 1 * 10) by lia. apply Z.div_add. lia. }
  split.
  - intros Hlt. rewrite Hq.
    assert (s / 10 <= 17) by (apply Z.lt_succ_r, Z.div_lt_upper_bound; lia).
    lia.
  - split.
    + intros H. destruct (Z.lt_ge_cases s 180) as [Hlt | Hge]; [| exact Hge].
      assert (s / 10 <= 17) by (apply Z.lt_succ_r, Z.div_lt_upper_bound; lia).
      lia.
    + intros Hge. assert (18 <= s / 10) by (apply Z.div_le_lower_bound; lia).
      lia.
Qed.

Lemma currentSpeed_steps_witness :
  currentSpeed 50 = currentSpeed 40 - 5 /\ currentSpeed 180 = 60.
Proof.
  destruct (currentSpeed_steps 40 ltac:(lia)) as [Hstep _].
  destruct (currentSpeed_steps 180 ltac:(lia)) as [_ Hfloor].
  split; [apply Hstep; lia | apply Hfloor; lia].
Defined.

(** ** The shape of the snake *)

Lemma chain_removelast (segments : list Position) :
  chain segments -> chain (removelast segments).
Proof.
  induction segments as [| p [| q rest] IH]; intros H; try exact I.
  change (removelast (p :: q :: rest)) with (p :: removelast (q :: rest)).
  destruct H as [Hpq Hrest]. specialize (IH Hrest).
  destruct rest as [| r rest]; [exact I |].
  change (removelast (q :: r :: rest)) with (q :: removelast (r :: rest))
    in IH |- *.
  split; assumption.
Qed.

Lemma adjacent_newHead (d : Direction) (head : Position) :
  adjacent (newHead d head) head.
Proof. destruct d; unfold adjacent; simpl; lia. Qed.

(** In a reachable state the snake is a path on the grid: each segment is
    the neighbour, in its row or its column, of the segment after it. *)
Theorem snake_is_a_path (g : Game) (Hreach : reachable g) :
  chain (snake g).
Proof.
  induction Hreach as [| e g g' Hreach IH Hok Hstep].
  - exact I.
  - pose proof (reachable_invariant g Hreach) as [Hne _ _ _ _].
    destruct e as [highScore fuel random | key]; simpl in Hstep.
    + destruct (tick highScore fuel random g) as [[g1 calls] | |] eqn:T;
        try discriminate.
      injection Hstep as <-.
      destruct (gameOver g || isPaused g) eqn:Hidle.
      { apply orb_true_iff in Hidle. rewrite tick_idle in T by assumption.
        injection T as <- _. exact IH. }
      apply orb_false_iff in Hidle.
      destruct (snake g) as [| head tl] eqn:Hsnake; [congruence |].
      rewrite (tick_running highScore fuel random g head tl Hidle Hsnake)
        in T.
      cbv zeta in T. rewrite Hsnake in T.
      destruct (hits_wall (newHead (direction g) head)
                || occupies (head :: tl) (newHead (direction g) head)).
      { injection T as <- _. simpl. now rewrite Hsnake. }
      destruct (same_cell (newHead (direction g) head) (food g)).
      * destruct (generateFood fuel random (head :: tl)); [| discriminate].
        injection T as <- _.
        change (chain (newHead (direction g) head :: head :: tl)).
        split; [apply adjacent_newHead | exact IH].
      * injection T as <- _.
        change (chain (removelast (newHead (direction g) head :: head :: tl))).
        apply chain_removelast.
        split; [apply adjacent_newHead | exact IH].
    + injection Hstep as <-. unfold handleKeyDown.
      repeat match goal with
             | |- context [if ?b then _ else _] => destruct b
             end; simpl; try exact IH; exact I.
Qed.

Lemma snake_is_a_path_witness :
  adjacent (mkPosition 20 7) (mkPosition 19 7).
Proof.
  apply (snake_is_a_path
           {| snake := [mkPosition 20 7; mkPosition 19 7];
              food := mkPosition 3 3;
              direction := RIGHT; gameOver := false; score := 10;
              isPaused := false |}).
  apply (run_reachable (repeat (Tick 0 1 (always (mkPosition 3 3))) 5)
           initial).
  - exact reachable_initial.
  - apply Forall_forall. intros e He. apply repeat_spec in He. subst e.
    intros k. unfold always, in_grid, GRID_WIDTH, GRID_HEIGHT. simpl. lia.
  - reflexivity.
Defined.

Lemma new_food_avoids_previous_snake_witness :
  occupies [mkPosition 19 7] (mkPosition 2 2) = false.
Proof.
  exact (proj1 (new_food_avoids_previous_snake 0 1
                  (always (mkPosition 2 2))
                  (setSnake [mkPosition 19 7] initial)
                  {| snake := [mkPosition 20 7; mkPosition 19 7];
                     food := mkPosition 2 2;
                     direction := RIGHT; gameOver := false; score := 10;
                     isPaused := false |}
                  [] (mkPosition 19 7) []
                  (conj eq_refl eq_refl) eq_refl eq_refl eq_refl eq_refl)).
Defined.

End SnakeGame.

(** * Properties of the command line *)
Module TerminalCardFacts.

Import TerminalCard.

Local Open Scope string_scope.
Local Open Scope Z_scope.

Section Builtins.

Variable trim : string -> string.
Variable toLowerCase : string -> string.

Local Abbreviation executeCommand := (TerminalCard.executeCommand trim toLowerCase).
Local Abbreviation handleTabComplete := (TerminalCard.handleTabComplete toLowerCase).
Local Abbreviation handleKeyDown := (TerminalCard.handleKeyDown trim toLowerCase).
Local Abbreviation step := (TerminalCard.step trim toLowerCase).
Local Abbreviation run := (TerminalCard.run trim toLowerCase).
Local Abbreviation reachable := (TerminalCard.reachable trim toLowerCase).
Local Abbreviation invariant := (TerminalCard.invariant trim toLowerCase).

(** ** Reading the history *)

Lemma at_index_in_range (l : list string) (i : Z) :
  0 <= i < Z.of_nat (List.length l) ->
  exists c, at_index l i = Some c /\ In c l.
Proof.
  intros Hi. unfold at_index.
  replace (i <? 0) with false by (symmetry; apply Z.ltb_ge; lia).
  destruct (nth_error l (Z.to_nat i)) as [c |] eqn:E.
  - exists c. split; [reflexivity |]. eapply nth_error_In; eassumption.
  - apply nth_error_None in E. lia.
Qed.

Lemma at_index_last (l : list string) (c : string) :
  at_index (l ++ [c]) (Z.of_nat (List.length (l ++ [c])) - 1) = Some c.
Proof.
  unfold at_index. rewrite length_app. simpl List.length.
  replace (Z.of_nat (List.length l + 1) - 1 <? 0) with false
    by (symmetry; apply Z.ltb_ge; lia).
  replace (Z.to_nat (Z.of_nat (List.length l + 1) - 1))
    with (List.length l) by lia.
  rewrite nth_error_app2 by lia. now rewrite Nat.sub_diag.
Qed.

(** ** The switch *)

Lemma switch_Break (c cmd : string) (o : Output) :
  switch c cmd = Break o -> c <> "" /\ c <> "clear".
Proof.
  unfold switch.
  repeat match goal with
         | |- context [String.eqb c ?lit] =>
             let E := fresh "E" in
             destruct (String.eqb c lit) eqn:E;
             [apply String.eqb_eq in E | apply String.eqb_neq in E]
         end;
    intros H; try discriminate H; subst; split; try assumption;
    discriminate.
Qed.

Lemma switch_recorded (c cmd : string) :
  c <> "" -> c <> "clear" -> exists o, switch c cmd = Break o.
Proof.
  intros H1 H2. unfold switch.
  apply String.eqb_neq in H1, H2. rewrite H1, H2.
  repeat match goal with
         | |- context [if ?b then _ else _] => destruct b
         end; eexists; reflexivity.
Qed.

(** ** Invariants of the reachable states *)

Lemma terminal_invariant_initial : invariant initial.
Proof.
  split; simpl.
  - discriminate.
  - now left.
  - constructor.
  - lia.
Qed.

Lemma terminal_invariant_execute (cmd : string) (t : Terminal) :
  invariant t -> invariant (executeCommand cmd t).
Proof.
  intros [Hc Hi Hr Hs]. unfold TerminalCard.executeCommand. cbv zeta.
  destruct (switch (toLowerCase (trim cmd)) cmd) as [o | |] eqn:Sw.
  - destruct (switch_Break _ _ _ Sw) as [Hne Hnc].
    apply String.eqb_neq in Hne. rewrite Hne. simpl negb. cbv iota.
    apply String.eqb_neq in Hne.
    split; simpl.
    + discriminate.
    + now left.
    + apply Forall_app. split; [exact Hr |].
      constructor; [| constructor].
      split; [exact Hne | split; [exact Hnc | now exists cmd]].
    + rewrite !length_app. simpl. lia.
  - split; simpl; try assumption; [discriminate | lia].
  - split; assumption.
Qed.

Lemma matching_single (prefix : string) :
  Nat.eqb (List.length (matching prefix)) 1 = true ->
  exists m, matching prefix = [m] /\ nth_error (matching prefix) 0 = Some m.
Proof.
  intros H. apply Nat.eqb_eq in H.
  destruct (matching prefix) as [| m [| m' rest]]; try discriminate.
  now exists m.
Qed.

Lemma terminal_invariant_key (key : string) (t t' : Terminal)
    (prevented : bool) :
  invariant t -> handleKeyDown key t = Returns (t', prevented) ->
  invariant t'.
Proof.
  intros I H. unfold TerminalCard.handleKeyDown in H.
  destruct (String.eqb key "Enter").
  { destruct (currentCommand t) as [cmd |]; [| discriminate].
    injection H as <- _. now apply terminal_invariant_execute. }
  destruct (String.eqb key "Tab").
  { unfold TerminalCard.handleTabComplete in H.
    destruct (currentCommand t) as [typed |]; [| discriminate].
    destruct (Nat.eqb (List.length (matching (toLowerCase typed))) 1)
      eqn:One; injection H as <- _; [| exact I].
    destruct (matching_single _ One) as [m [-> _]].
    destruct I as [Hc Hi Hr Hs]. split; simpl; try assumption.
    discriminate. }
  destruct I as [Hc Hi Hr Hs].
  destruct (String.eqb key "ArrowUp").
  { destruct (Z.of_nat (List.length (inputHistory t)) >? 0) eqn:Hlen;
      injection H as <- _; [| split; assumption].
    apply Z.gtb_gt in Hlen.
    set (newIndex :=
           if historyIndex t =? -1
           then Z.of_nat (List.length (inputHistory t)) - 1
           else Z.max 0 (historyIndex t - 1)).
    assert (Hnew : 0 <= newIndex < Z.of_nat (List.length (inputHistory t))).
    { unfold newIndex. destruct (historyIndex t =? -1) eqn:E.
      - lia.
      - apply Z.eqb_neq in E. lia. }
    destruct (at_index_in_range _ _ Hnew) as [c [Ec _]].
    split; simpl; try assumption.
    - rewrite Ec. discriminate.
    - now right. }
  destruct (String.eqb key "ArrowDown").
  { destruct (historyIndex t =? -1) eqn:E; simpl negb in H; cbv iota in H;
      [injection H as <- _; split; assumption |].
    apply Z.eqb_neq in E.
    destruct (historyIndex t + 1 >=? Z.of_nat (List.length (inputHistory t)))
      eqn:Hge; injection H as <- _.
    - split; simpl; try assumption; [discriminate | now left].
    - rewrite Z.geb_leb in Hge. apply Z.leb_gt in Hge.
      assert (Hnew : 0 <= historyIndex t + 1
                     < Z.of_nat (List.length (inputHistory t))) by lia.
      destruct (at_index_in_range _ _ Hnew) as [c [Ec _]].
      split; simpl; try assumption.
      + rewrite Ec. discriminate.
      + now right. }
  injection H as <- _. split; assumption.
Qed.

Lemma terminal_invariant_step (e : Event) (t t' : Terminal) :
  invariant t -> step e t = Returns t' -> invariant t'.
Proof.
  intros I H. destruct e as [key | value |]; unfold TerminalCard.step in H.
  - destruct (handleKeyDown key t) as [[t1 prevented] |] eqn:K;
      [| discriminate].
    injection H as <-. eapply terminal_invariant_key; eassumption.
  - injection H as <-. destruct I as [Hc Hi Hr Hs].
    split; simpl; try assumption. discriminate.
  - injection H as <-. destruct I as [Hc Hi Hr Hs]. split; assumption.
Qed.

Lemma terminal_reachable_invariant (t : Terminal) :
  reachable t -> invariant t.
Proof.
  induction 1 as [| e t t' _ IH Hstep].
  - exact terminal_invariant_initial.
  - eapply terminal_invariant_step; eassumption.
Qed.

Lemma terminal_run_reachable (events : list Event) : forall t t',
  reachable t -> run events t = Returns t' -> reachable t'.
Proof.
  induction events as [| e events IH]; intros t t' Ht H; simpl in H.
  - injection H as <-. exact Ht.
  - destruct (step e t) as [t1 |] eqn:S1; [| discriminate].
    apply (IH t1); [| exact H].
    now apply (reachable_step trim toLowerCase e t t1).
Qed.

(** In a reachable state no key makes the handler throw: the input always
    holds a string (never [undefined]) and the history index is -1 or an
    index of the recorded inputs, also after the key. *)
Theorem keys_never_throw (t : Terminal) (Hreach : reachable t)
    (key : string) :
  currentCommand t <> None
  /\ exists t' prevented,
       handleKeyDown key t = Returns (t', prevented)
       /\ currentCommand t' <> None
       /\ (historyIndex t' = -1
           \/ 0 <= historyIndex t'
              < Z.of_nat (List.length (inputHistory t'))).
Proof.
  pose proof (terminal_reachable_invariant t Hreach) as I.
  split; [apply I |].
  assert (Hret : exists t' prevented,
             handleKeyDown key t = Returns (t', prevented)).
  { destruct I as [Hc _ _ _]. unfold TerminalCard.handleKeyDown,
      TerminalCard.handleTabComplete.
    destruct (currentCommand t) as [cmd |]; [| congruence].
    repeat match goal with
           | |- context [if ?b then _ else _] => destruct b
           end; eexists; eexists; reflexivity. }
  destruct Hret as [t' [prevented E]].
  exists t', prevented. split; [exact E |].
  assert (I' : invariant t')
    by (eapply terminal_invariant_key; eassumption).
  split; apply I'.
Qed.

(** In a reachable state no recorded input is empty or [clear], each is
    the lower-cased trimmed form of a command that was entered, and the
    screen holds no more entries than inputs were recorded. *)
Theorem recorded_inputs (t : Terminal) (Hreach : reachable t) :
  Forall (fun c => c <> "" /\ c <> "clear"
                   /\ exists cmd, c = toLowerCase (trim cmd))
         (inputHistory t)
  /\ (List.length (commandHistory t) <= List.length (inputHistory t))%nat.
Proof.
  pose proof (terminal_reachable_invariant t Hreach) as I.
  split; apply I.
Qed.

(** ** The four keys *)

Lemma handleKeyDown_Enter (t : Terminal) (cmd : string) :
  currentCommand t = Some cmd ->
  handleKeyDown "Enter" t = Returns (executeCommand cmd t, false).
Proof.
  intros H. unfold TerminalCard.handleKeyDown.
  change (String.eqb "Enter" "Enter") with true. cbv iota. now rewrite H.
Qed.

Lemma handleKeyDown_ArrowUp (t : Terminal) :
  inputHistory t <> [] ->
  let newIndex :=
    if historyIndex t =? -1
    then Z.of_nat (List.length (inputHistory t)) - 1
    else Z.max 0 (historyIndex t - 1) in
  handleKeyDown "ArrowUp" t =
    Returns (setCurrentCommand (at_index (inputHistory t) newIndex)
               (setHistoryIndex newIndex t), true).
Proof.
  intros Hne newIndex. unfold TerminalCard.handleKeyDown.
  change (String.eqb "ArrowUp" "Enter") with false.
  change (String.eqb "ArrowUp" "Tab") with false.
  change (String.eqb "ArrowUp" "ArrowUp") with true. cbv iota.
  replace (Z.of_nat (List.length (inputHistory t)) >? 0) with true;
    [reflexivity |].
  symmetry. apply Z.gtb_gt. destruct (inputHistory t);
    [congruence | simpl List.length; lia].
Qed.

Lemma handleKeyDown_ArrowDown (t : Terminal) :
  historyIndex t <> -1 ->
  handleKeyDown "ArrowDown" t =
    if historyIndex t + 1 >=? Z.of_nat (List.length (inputHistory t))
    then Returns (setCurrentCommand (Some "") (setHistoryIndex (-1) t), true)
    else Returns (setCurrentCommand
                    (at_index (inputHistory t) (historyIndex t + 1))
                    (setHistoryIndex (historyIndex t + 1) t), true).
Proof.
  intros Hidx. unfold TerminalCard.handleKeyDown.
  change (String.eqb "ArrowDown" "Enter") with false.
  change (String.eqb "ArrowDown" "Tab") with false.
  change (String.eqb "ArrowDown" "ArrowUp") with false.
  change (String.eqb "ArrowDown" "ArrowDown") with true. cbv iota.
  apply Z.eqb_neq in Hidx. rewrite Hidx. reflexivity.
Qed.

(** Entering a command that is neither blank nor [clear] once trimmed and
    lower-cased prints it as it was typed and empties the input; ArrowUp
    then brings back its trimmed lower-case form, not the text typed. *)
Theorem enter_then_ArrowUp (t : Terminal) (cmd : string)
    (Hcmd : currentCommand t = Some cmd)
    (Hne : toLowerCase (trim cmd) <> "")
    (Hnc : toLowerCase (trim cmd) <> "clear") :
  exists o t1 t2,
    handleKeyDown "Enter" t = Returns (t1, false)
    /\ commandHistory t1
       = (commandHistory t ++ [{| command := cmd; output := o |}])%list
    /\ inputHistory t1 = (inputHistory t ++ [toLowerCase (trim cmd)])%list
    /\ currentCommand t1 = Some ""
    /\ handleKeyDown "ArrowUp" t1 = Returns (t2, true)
    /\ currentCommand t2 = Some (toLowerCase (trim cmd))
    /\ historyIndex t2 = Z.of_nat (List.length (inputHistory t)).
Proof.
  destruct (switch_recorded _ cmd Hne Hnc) as [o Sw].
  assert (E1 : executeCommand cmd t =
               {| commandHistory :=
                    (commandHistory t
                     ++ [{| command := cmd; output := o |}])%list;
                  currentCommand := Some "";
                  showCursor := showCursor t;
                  inputHistory :=
                    (inputHistory t ++ [toLowerCase (trim cmd)])%list;
                  historyIndex := -1 |}).
  { unfold TerminalCard.executeCommand. cbv zeta. rewrite Sw.
    apply String.eqb_neq in Hne. now rewrite Hne. }
  exists o. eexists. eexists.
  split; [rewrite (handleKeyDown_Enter t cmd Hcmd), E1; reflexivity |].
  split; [reflexivity | split; [reflexivity | split; [reflexivity |]]].
  split.
  - apply handleKeyDown_ArrowUp. simpl.
    destruct (inputHistory t); discriminate.
  - cbv zeta. simpl historyIndex. simpl inputHistory.
    change (-1 =? -1) with true. cbv iota. simpl currentCommand.
    split; [apply at_index_last |].
    rewrite length_app. simpl. lia.
Qed.

(** Walking the history: from an index of 1 or more, ArrowUp then
    ArrowDown comes back to the same entry; from an index that is not the
    last, ArrowDown then ArrowUp does; and from outside the history (index
    -1) ArrowUp then ArrowDown leaves an empty input, whatever had been
    typed. *)
Theorem history_walk (t : Terminal) (Hne : inputHistory t <> []) :
  (historyIndex t = -1 ->
   exists t',
     run [KeyDown "ArrowUp"; KeyDown "ArrowDown"] t = Returns t'
     /\ historyIndex t' = -1 /\ currentCommand t' = Some "")
  /\ (1 <= historyIndex t < Z.of_nat (List.length (inputHistory t)) ->
      exists t',
        run [KeyDown "ArrowUp"; KeyDown "ArrowDown"] t = Returns t'
        /\ historyIndex t' = historyIndex t
        /\ currentCommand t' = at_index (inputHistory t) (historyIndex t))
  /\ (0 <= historyIndex t
      /\ historyIndex t + 1 < Z.of_nat (List.length (inputHistory t)) ->
      exists t',
        run [KeyDown "ArrowDown"; KeyDown "ArrowUp"] t = Returns t'
        /\ historyIndex t' = historyIndex t
        /\ currentCommand t' = at_index (inputHistory t) (historyIndex t)).
Proof.
  split; [| split].
  - intros Hidx. cbn [TerminalCard.run TerminalCard.step].
    rewrite (handleKeyDown_ArrowUp t Hne). cbv zeta.
    rewrite Hidx. change (-1 =? -1) with true. cbv iota.
    rewrite handleKeyDown_ArrowDown.
    2:{ simpl. destruct (inputHistory t); [congruence |].
        simpl List.length. lia. }
    simpl historyIndex. simpl inputHistory.
    replace (Z.of_nat (List.length (inputHistory t)) - 1 + 1
             >=? Z.of_nat (List.length (inputHistory t))) with true
      by (symmetry; rewrite Z.geb_leb; apply Z.leb_le; lia).
    eexists. split; [reflexivity |]. split; reflexivity.
  - intros Hidx. cbn [TerminalCard.run TerminalCard.step].
    rewrite (handleKeyDown_ArrowUp t Hne). cbv zeta.
    replace (historyIndex t =? -1) with false
      by (symmetry; apply Z.eqb_neq; lia).
    rewrite handleKeyDown_ArrowDown by (simpl; lia).
    simpl historyIndex. simpl inputHistory.
    replace (Z.max 0 (historyIndex t - 1) + 1) with (historyIndex t) by lia.
    replace (historyIndex t >=? Z.of_nat (List.length (inputHistory t)))
      with false by (symmetry; rewrite Z.geb_leb; apply Z.leb_gt; lia).
    eexists. split; [reflexivity |]. split; reflexivity.
  - intros [Hlo Hhi]. cbn [TerminalCard.run TerminalCard.step].
    rewrite handleKeyDown_ArrowDown by lia.
    replace (historyIndex t + 1 >=? Z.of_nat (List.length (inputHistory t)))
      with false by (symmetry; rewrite Z.geb_leb; apply Z.leb_gt; lia).
    rewrite handleKeyDown_ArrowUp by exact Hne. cbv zeta.
    simpl historyIndex. simpl inputHistory.
    replace (historyIndex t + 1 =? -1) with false
      by (symmetry; apply Z.eqb_neq; lia).
    replace (Z.max 0 (historyIndex t + 1 - 1)) with (historyIndex t) by lia.
    eexists. split; [reflexivity |]. split; reflexivity.
Qed.

Lemma ArrowUp_from (n : nat) : forall t,
  0 <= historyIndex t < Z.of_nat (List.length (inputHistory t)) ->
  exists t',
    run (repeat (KeyDown "ArrowUp") n) t = Returns t'
    /\ historyIndex t' = Z.max 0 (historyIndex t - Z.of_nat n)
    /\ inputHistory t' = inputHistory t
    /\ ((1 <= n)%nat ->
        currentCommand t' = at_index (inputHistory t) (historyIndex t')).
Proof.
  induction n as [| n IH]; intros t Hidx.
  - exists t. split; [reflexivity |]. split; [lia |]. split; [reflexivity |].
    lia.
  - assert (Hne : inputHistory t <> [])
      by (destruct (inputHistory t); [simpl in Hidx; lia | discriminate]).
    cbn [repeat TerminalCard.run TerminalCard.step].
    rewrite (handleKeyDown_ArrowUp t Hne). cbv zeta.
    replace (historyIndex t =? -1) with false
      by (symmetry; apply Z.eqb_neq; lia).
    set (t1 := setCurrentCommand _ _).
    assert (H1 : 0 <= historyIndex t1
                 < Z.of_nat (List.length (inputHistory t1)))
      by (unfold t1; simpl; lia).
    destruct (IH t1 H1) as [t' [E [Hi [Hh Hc]]]].
    exists t'. split; [exact E |].
    assert (Hidx1 : historyIndex t1 = Z.max 0 (historyIndex t - 1))
      by reflexivity.
    assert (Hhist1 : inputHistory t1 = inputHistory t) by reflexivity.
    split; [rewrite Hi, Hidx1; lia |].
    split; [now rewrite Hh |].
    intros _. destruct n as [| n].
    + simpl in E. injection E as <-. reflexivity.
    + rewrite Hc by lia. now rewrite Hhist1.
Qed.

(** Pressing ArrowUp [n] times (once at least) from outside the history
    shows the [n]-th input from the end, and stays on the oldest input
    once it is reached. *)
Theorem ArrowUp_repeated (t : Terminal) (n : nat)
    (Hidx : historyIndex t = -1) (Hne : inputHistory t <> [])
    (Hn : (1 <= n)%nat) :
  exists t',
    run (repeat (KeyDown "ArrowUp") n) t = Returns t'
    /\ historyIndex t'
       = Z.max 0 (Z.of_nat (List.length (inputHistory t)) - Z.of_nat n)
    /\ inputHistory t' = inputHistory t
    /\ currentCommand t' = at_index (inputHistory t) (historyIndex t').
Proof.
  destruct n as [| n]; [lia |].
  cbn [repeat TerminalCard.run TerminalCard.step].
  rewrite (handleKeyDown_ArrowUp t Hne). cbv zeta.
  rewrite Hidx. change (-1 =? -1) with true. cbv iota.
  set (t1 := setCurrentCommand _ _).
  assert (Hlen : 0 < Z.of_nat (List.length (inputHistory t)))
    by (destruct (inputHistory t); [congruence | simpl List.length; lia]).
  assert (H1 : 0 <= historyIndex t1
               < Z.of_nat (List.length (inputHistory t1)))
    by (unfold t1; simpl; lia).
  destruct (ArrowUp_from n t1 H1) as [t' [E [Hi [Hh Hc]]]].
  exists t'. split; [exact E |].
  assert (Hidx1 : historyIndex t1
                  = Z.of_nat (List.length (inputHistory t)) - 1)
    by reflexivity.
  assert (Hhist1 : inputHistory t1 = inputHistory t) by reflexivity.
  split; [rewrite Hi, Hidx1; lia |].
  split; [now rewrite Hh |].
  destruct n as [| n].
  - simpl in E. injection E as <-. reflexivity.
  - rewrite Hc by lia. now rewrite Hhist1.
Qed.

(** ** Tab *)

Lemma matching_available (m : string) :
  In m availableCommands -> matching m = [m].
Proof.
  intros H. simpl in H.
  repeat (destruct H as [<- | H]; [reflexivity |]). contradiction.
Qed.

(** When lower-casing leaves the seven commands as they are, Tab changes
    the input only to the one command that starts with the lower-cased
    input (none when several or no command does), and a second Tab changes
    nothing more. *)
Theorem tab_completes_once (t t1 : Terminal) (typed : string)
    (Hlower : forall c, In c availableCommands -> toLowerCase c = c)
    (Htyped : currentCommand t = Some typed)
    (Htab : handleTabComplete t = Returns t1) :
  handleTabComplete t1 = Returns t1
  /\ (t1 = t
      \/ exists m,
           t1 = setCurrentCommand (Some m) t
           /\ In m availableCommands
           /\ String.prefix (toLowerCase typed) m = true
           /\ forall m', In m' availableCommands ->
                String.prefix (toLowerCase typed) m' = true -> m' = m).
Proof.
  unfold TerminalCard.handleTabComplete in Htab. rewrite Htyped in Htab.
  destruct (Nat.eqb (List.length (matching (toLowerCase typed))) 1) eqn:One;
    injection Htab as <-.
  - destruct (matching_single _ One) as [m [Em _]].
    assert (Hm : In m (matching (toLowerCase typed)))
      by (rewrite Em; now left).
    unfold matching in Hm. apply filter_In in Hm. destruct Hm as [Hin Hpre].
    rewrite Em. simpl nth_error. split.
    + unfold TerminalCard.handleTabComplete.
      change (currentCommand (setCurrentCommand (Some m) t)) with (Some m).
      cbv iota beta.
      rewrite (Hlower m Hin), (matching_available m Hin). reflexivity.
    + right. exists m. repeat split; try assumption.
      intros m' Hin' Hpre'.
      assert (Hm' : In m' (matching (toLowerCase typed)))
        by (unfold matching; apply filter_In; now split).
      rewrite Em in Hm'. destruct Hm' as [<- | []]. reflexivity.
  - split; [| now left].
    unfold TerminalCard.handleTabComplete. rewrite Htyped, One. reflexivity.
Qed.

(** ** The recorded inputs only grow *)

Lemma step_appends (e : Event) (t t' : Terminal) :
  step e t = Returns t' ->
  exists suffix, inputHistory t' = (inputHistory t ++ suffix)%list.
Proof.
  intros H. destruct e as [key | value |]; unfold TerminalCard.step in H.
  - destruct (handleKeyDown key t) as [[t1 prevented] |] eqn:K;
      [| discriminate].
    injection H as <-. unfold TerminalCard.handleKeyDown in K.
    destruct (String.eqb key "Enter").
    { destruct (currentCommand t) as [cmd |]; [| discriminate].
      injection K as <- _. unfold TerminalCard.executeCommand. cbv zeta.
      destruct (switch (toLowerCase (trim cmd)) cmd);
        [| exists []; simpl; now rewrite app_nil_r
         | exists []; simpl; now rewrite app_nil_r].
      destruct (negb (String.eqb (toLowerCase (trim cmd)) ""));
        simpl; [eexists; reflexivity | exists []; now rewrite app_nil_r]. }
    exists []. rewrite app_nil_r.
    destruct (String.eqb key "Tab").
    { unfold TerminalCard.handleTabComplete in K.
      destruct (currentCommand t); [| discriminate].
      destruct (Nat.eqb _ 1); injection K as <- _; reflexivity. }
    repeat match type of K with
           | context [if ?b then _ else _] => destruct b
           end; injection K as <- _; reflexivity.
  - injection H as <-. exists []. simpl. now rewrite app_nil_r.
  - injection H as <-. exists []. simpl. now rewrite app_nil_r.
Qed.

(** No sequence of events removes or changes a recorded input: the
    inputs recorded before are a prefix of those recorded after ([clear]
    empties the screen only). *)
Theorem inputHistory_only_grows (events : list Event) (t t' : Terminal)
    (Hrun : run events t = Returns t') :
  exists suffix, inputHistory t' = (inputHistory t ++ suffix)%list.
Proof.
  revert t Hrun. induction events as [| e events IH]; intros t Hrun;
    simpl in Hrun.
  - injection Hrun as <-. exists []. now rewrite app_nil_r.
  - destruct (step e t) as [t1 |] eqn:S1; [| discriminate].
    destruct (step_appends e t t1 S1) as [s1 E1].
    destruct (IH t1 Hrun) as [s2 E2].
    exists (s1 ++ s2)%list. now rewrite E2, E1, app_assoc.
Qed.

End Builtins.

(** ** Examples on ASCII text *)

Lemma ascii_lower_available (c : string) :
  In c availableCommands -> ascii_toLowerCase c = c.
Proof.
  intros H. simpl in H.
  repeat (destruct H as [<- | H]; [reflexivity |]). contradiction.
Qed.

Lemma two_commands_reachable :
  TerminalCard.reachable ascii_trim ascii_toLowerCase two_commands.
Proof.
  apply (terminal_run_reachable ascii_trim ascii_toLowerCase
           [Change "  LS "; KeyDown "Enter";
            Change "Cat Help.txt"; KeyDown "Enter"]
           initial two_commands).
  - apply reachable_initial.
  - reflexivity.
Qed.

Lemma keys_never_throw_witness :
  exists t' prevented,
    TerminalCard.handleKeyDown ascii_trim ascii_toLowerCase
      "ArrowUp" two_commands = Returns (t', prevented)
    /\ currentCommand t' <> None.
Proof.
  destruct (keys_never_throw ascii_trim ascii_toLowerCase two_commands
              two_commands_reachable "ArrowUp")
    as [_ [t' [prevented [E [Hc _]]]]].
  exists t', prevented. split; assumption.
Defined.

Lemma recorded_inputs_witness :
  Forall (fun c => c <> "" /\ c <> "clear"
                   /\ exists cmd, c = ascii_toLowerCase (ascii_trim cmd))
         ["ls"; "cat help.txt"].
Proof.
  exact (proj1 (recorded_inputs ascii_trim ascii_toLowerCase two_commands
                  two_commands_reachable)).
Defined.

Lemma enter_then_ArrowUp_witness :
  exists o t1 t2,
    TerminalCard.handleKeyDown ascii_trim ascii_toLowerCase "Enter"
      (setCurrentCommand (Some " WhoAmI ") two_commands)
      = Returns (t1, false)
    /\ commandHistory t1
       = (commandHistory two_commands
          ++ [{| command := " WhoAmI "; output := o |}])%list
    /\ TerminalCard.handleKeyDown ascii_trim ascii_toLowerCase "ArrowUp" t1
       = Returns (t2, true)
    /\ currentCommand t2 = Some "whoami".
Proof.
  destruct (enter_then_ArrowUp ascii_trim ascii_toLowerCase
              (setCurrentCommand (Some " WhoAmI ") two_commands)
              " WhoAmI " eq_refl)
    as [o [t1 [t2 [E1 [Hc [_ [_ [E2 [Hc2 _]]]]]]]]];
    [discriminate | discriminate |].
  exists o, t1, t2. repeat split; assumption.
Defined.

Lemma history_walk_witness :
  exists t',
    TerminalCard.run ascii_trim ascii_toLowerCase
      [KeyDown "ArrowUp"; KeyDown "ArrowDown"]
      (setCurrentCommand (Some "draft") two_commands) = Returns t'
    /\ currentCommand t' = Some "".
Proof.
  destruct (proj1 (history_walk ascii_trim ascii_toLowerCase
                     (setCurrentCommand (Some "draft") two_commands)
                     ltac:(discriminate)) eq_refl)
    as [t' [E [_ Hc]]].
  exists t'. split; assumption.
Defined.

Lemma ArrowUp_repeated_witness :
  exists t',
    TerminalCard.run ascii_trim ascii_toLowerCase
      (repeat (KeyDown "ArrowUp") 5) two_commands = Returns t'
    /\ historyIndex t' = 0
    /\ currentCommand t' = Some "ls".
Proof.
  destruct (ArrowUp_repeated ascii_trim ascii_toLowerCase two_commands 5
              eq_refl ltac:(discriminate) ltac:(lia))
    as [t' [E [Hi [_ Hc]]]].
  exists t'. split; [exact E |].
  split; [exact Hi | rewrite Hc, Hi; reflexivity].
Defined.

Lemma tab_completes_once_witness :
  TerminalCard.handleTabComplete ascii_toLowerCase
    (setCurrentCommand (Some "cat skills.txt")
       (setCurrentCommand (Some "CAT S") two_commands))
  = Returns (setCurrentCommand (Some "cat skills.txt")
               (setCurrentCommand (Some "CAT S") two_commands)).
Proof.
  exact (proj1 (tab_completes_once ascii_toLowerCase
                  (setCurrentCommand (Some "CAT S") two_commands)
                  (setCurrentCommand (Some "cat skills.txt")
                     (setCurrentCommand (Some "CAT S") two_commands))
                  "CAT S" ascii_lower_available eq_refl eq_refl)).
Defined.

Lemma inputHistory_only_grows_witness :
  exists suffix,
    inputHistory two_commands = (inputHistory initial ++ suffix)%list.
Proof.
  exact (inputHistory_only_grows ascii_trim ascii_toLowerCase
           [Change "  LS "; KeyDown "Enter";
            Change "Cat Help.txt"; KeyDown "Enter"]
           initial two_commands eq_refl).
Defined.

End TerminalCardFacts.
